(** * The structural linter of the GSC editor (src/main.py, [lint_script])

    A shallow embedding of the bracket and string-literal scanner of
    [MainWindow.lint_script] and the properties of its diagnostics. *)

From stdpp Require Import base numbers option list sorting strings pretty gmap.

Local Open Scope N_scope.
Local Open Scope nat_scope.

(** ** Python values *)

(** A Python [str] is a sequence of Unicode code points. A character (a
    [str] of length one, as produced by [line[j]]) is its code point. *)
Abbreviation char := N (only parsing).
Abbreviation str := (list N) (only parsing).

(** Code points of a literal of the source. *)
Definition of_string (s : string) : str :=
  Ascii.N_of_ascii <$> String.list_ascii_of_string s.

Definition c_dquote : char := 34%N.   (* the double quote *)
Definition c_squote : char := 39%N.   (* the single quote *)
Definition c_backslash : char := 92%N.   (* the backslash *)
Definition c_lparen : char := 40%N.   (* left parenthesis *)
Definition c_rparen : char := 41%N.   (* right parenthesis *)
Definition c_lbracket : char := 91%N.   (* left square bracket *)
Definition c_rbracket : char := 93%N.   (* right square bracket *)
Definition c_lbrace : char := 123%N.   (* left brace *)
Definition c_rbrace : char := 125%N.   (* right brace *)

(** The exceptions the scanner's subscripts and calls could raise. *)
Inductive PyExc : Type :=
  | IndexError
  | KeyError.

Inductive result (A : Type) : Type :=
  | Ok (a : A)
  | Raise (e : PyExc).
Arguments Ok {A} a.
Arguments Raise {A} e.

#[export] Instance result_ret : MRet result := λ A a, Ok a.
#[export] Instance result_bind : MBind result := λ A B f m,
  match m with
  | Ok a => f a
  | Raise e => Raise e
  end.
#[export] Instance result_fmap : FMap result := λ A B f m,
  match m with
  | Ok a => Ok (f a)
  | Raise e => Raise e
  end.

(** [l[j]] for [0 <= j]. *)
Definition getitem {A} (l : list A) (j : nat) : result A :=
  match l !! j with
  | Some x => Ok x
  | None => Raise IndexError
  end.

(** [l[-1]]. *)
Definition getlast {A} (l : list A) : result A :=
  match last l with
  | Some x => Ok x
  | None => Raise IndexError
  end.

(** [l.pop()]: the list without its last element. *)
Definition pop {A} (l : list A) : result (list A) :=
  match last l with
  | Some _ => Ok (removelast l)
  | None => Raise IndexError
  end.

(** [d[k]] on a dict. *)
Definition dict_get (d : gmap N char) (k : char) : result char :=
  match d !! k with
  | Some v => Ok v
  | None => Raise KeyError
  end.

(** ** [str.splitlines()]

    The line boundaries of Python's [str.splitlines]: LF, CR, CR LF, VT,
    FF, FS, GS, RS, NEL, LS and PS. The terminators are dropped, a CR LF
    pair counts once, and a final terminator opens no further line. *)
Definition is_linebreak (c : char) : bool :=
  bool_decide (c ∈ [10; 13; 11; 12; 28; 29; 30; 133; 8232; 8233]%N).

(** [after_cr]: the previous character was a CR that ended a line;
    [cur]: the characters of the current line so far, latest first. *)
Fixpoint splitlines_go (after_cr : bool) (cur : str) (s : str) : list str :=
  match s with
  | [] => match cur with [] => [] | _ => [reverse cur] end
  | c :: rest =>
      if after_cr && (c =? 10)%N then splitlines_go false cur rest
      else if is_linebreak c then
        reverse cur :: splitlines_go (c =? 13)%N [] rest
      else splitlines_go false (c :: cur) rest
  end.

Definition splitlines (text : str) : list str := splitlines_go false [] text.

(** ** The scanner's data *)

(** An entry of [errors]: the dict with keys line, col, len and msg. *)
Record Diagnostic : Type := mkDiagnostic {
  line : nat;
  col : nat;
  len : nat;
  msg : str
}.

(** An entry of [stack]: the tuple [(char, line, col)]. *)
Definition Opening : Type := char * nat * nat.

(** The local variables of one scan. [stack] and [errors] are Python
    lists: [append] adds at the end and [stack[-1]] is the last element. *)
Record ScanState : Type := mkScanState {
  stack : list Opening;
  errors : list Diagnostic;
  in_string : bool;
  string_char : option char;
  string_start_line : option nat;
  string_start_col : option nat
}.

Definition init_state : ScanState :=
  {| stack := []; errors := []; in_string := false; string_char := None;
     string_start_line := None; string_start_col := None |}.

(** The dict [pairs]: each closing bracket maps to its opening bracket. *)
Definition pairs : gmap N char :=
  {[ c_rbrace := c_lbrace; c_rparen := c_lparen; c_rbracket := c_lbracket ]}.

Definition is_quote (ch : char) : bool :=
  (ch =? c_dquote)%N || (ch =? c_squote)%N.
Definition is_opener (ch : char) : bool :=
  (ch =? c_lbrace)%N || (ch =? c_lparen)%N || (ch =? c_lbracket)%N.
Definition is_closer (ch : char) : bool :=
  (ch =? c_rbrace)%N || (ch =? c_rparen)%N || (ch =? c_rbracket)%N.

Definition msg_closing (ch : char) : str :=
  of_string "Unmatched closing '" ++ [ch] ++ of_string "'".
Definition msg_opening (ch : char) : str :=
  of_string "Unmatched opening '" ++ [ch] ++ of_string "'".
Definition msg_unterminated : str := of_string "Unterminated string literal".

(** ** The scan *)

(** The state updates of the loop body. *)
Definition enter_string (ch : char) (i j : nat) (st : ScanState) : ScanState :=
  {| stack := stack st; errors := errors st; in_string := true;
     string_char := Some ch; string_start_line := Some i;
     string_start_col := Some j |}.

Definition exit_string (st : ScanState) : ScanState :=
  {| stack := stack st; errors := errors st; in_string := false;
     string_char := None; string_start_line := None;
     string_start_col := None |}.

Definition set_stack (s : list Opening) (st : ScanState) : ScanState :=
  {| stack := s; errors := errors st; in_string := in_string st;
     string_char := string_char st;
     string_start_line := string_start_line st;
     string_start_col := string_start_col st |}.

Definition add_error (e : Diagnostic) (st : ScanState) : ScanState :=
  {| stack := stack st; errors := errors st ++ [e];
     in_string := in_string st; string_char := string_char st;
     string_start_line := string_start_line st;
     string_start_col := string_start_col st |}.

Definition closing_error (ch : char) (i j : nat) : Diagnostic :=
  {| line := i; col := j; len := 1; msg := msg_closing ch |}.

(** One iteration of [while j < len(line)] at line [i], column [j].
    [prev] is [None] for the empty string taken at [j = 0]. *)
Definition body (i j : nat) (text_line : str) (st : ScanState)
  : result ScanState :=
  ch ← getitem text_line j;
  prev ← (if bool_decide (0 < j) then Some <$> getitem text_line (j - 1)
          else mret None);
  if is_quote ch && negb (bool_decide (prev = Some c_backslash)) then
    if negb (in_string st) then mret (enter_string ch i j st)
    else if bool_decide (Some ch = string_char st) then mret (exit_string st)
    else mret st
  else if negb (in_string st) then
    if is_opener ch then mret (set_stack (stack st ++ [(ch, i, j)]) st)
    else if is_closer ch then
      matched ← (if bool_decide (stack st ≠ []) then
                   top ← getlast (stack st);
                   want ← dict_get pairs ch;
                   mret (bool_decide (top.1.1 = want))
                 else mret false);
      if (matched : bool) then
        s ← pop (stack st); mret (set_stack s st)
      else mret (add_error (closing_error ch i j) st)
    else mret st
  else mret st.

(** [j = 0; while j < len(line): ...; j += 1]. [rest] is [line[j:]], so
    the loop test [j < len(line)] is [rest] being non-empty. *)
Fixpoint while_j (i j : nat) (text_line rest : str) (st : ScanState)
  : result ScanState :=
  match rest with
  | [] => mret st
  | _ :: rest' =>
      st' ← body i j text_line st;
      while_j i (j + 1) text_line rest' st'
  end.

(** [for i, line in enumerate(lines, start=1)], entered at index [i]. *)
Fixpoint for_lines (i : nat) (lines : list str) (st : ScanState)
  : result ScanState :=
  match lines with
  | [] => mret st
  | text_line :: lines' =>
      st' ← while_j i 0 text_line text_line st;
      for_lines (i + 1) lines' st'
  end.

Definition scan (text : str) : result ScanState :=
  for_lines 1 (splitlines text) init_state.

(** ** End of scan *)

Definition unterminated_error (l c : nat) : Diagnostic :=
  {| line := l; col := c; len := 1; msg := msg_unterminated |}.

Definition opening_error (e : Opening) : Diagnostic :=
  {| line := e.1.2; col := e.2; len := 1; msg := msg_opening e.1.1 |}.

(** The two reporting steps after the loops: the open string, if any,
    then [for opener, line_no, col in stack: errors.append(...)].
    [string_start_col] is assigned together with [string_start_line]
    (lemma [string_vars_inv] below), so its default is never taken. *)
Definition report (st : ScanState) : list Diagnostic :=
  let errors1 :=
    match in_string st, string_start_line st with
    | true, Some l =>
        errors st ++ [unterminated_error l (default 0 (string_start_col st))]
    | _, _ => errors st
    end in
  foldl (λ errs e, errs ++ [opening_error e]) errors1 (stack st).

(** The value of [errors] when the reporting is done. *)
Definition lint (text : str) : result (list Diagnostic) :=
  st ← scan text; mret (report st).

(** ** Presentation and return value *)

Definition decimal (n : nat) : str := of_string (pretty n).

(** One entry of [html]: the link with target pos:ln:col and the text
    [Ln ln:Col col] followed by the message. *)
Definition html_entry (e : Diagnostic) : str :=
  of_string "<a href=" ++ [c_dquote] ++ of_string "pos:" ++ decimal (line e)
  ++ of_string ":" ++ decimal (col e) ++ [c_dquote]
  ++ of_string "><span style=" ++ [c_dquote] ++ of_string "color:#ff9b9b;"
  ++ [c_dquote] ++ of_string ">[Ln " ++ decimal (line e)
  ++ of_string ":Col " ++ decimal (col e) ++ of_string "] " ++ msg e
  ++ of_string "</span></a>".

(** [sep.join(parts)] *)
Fixpoint join (sep : str) (parts : list str) : str :=
  match parts with
  | [] => []
  | [p] => p
  | p :: ps => p ++ sep ++ join sep ps
  end.

Definition html_no_issues : str :=
  of_string "<span style=" ++ [c_dquote] ++ of_string "color:#9bd39b;"
  ++ [c_dquote] ++ of_string ">No lint issues found.</span>".

(** What [lint_script] reads and writes of the window: the text of the
    current editor ([None] when there is no editor) and the content of
    the error console. The underline selections it also sets on the
    editor widget are toolkit state and are left out. *)
Record MainWindow : Type := mkMainWindow {
  current_editor : option str;
  error_console : str
}.

Definition setHtml (html : str) (self : MainWindow) : MainWindow :=
  {| current_editor := current_editor self; error_console := html |}.

Definition lint_script (self : MainWindow) : result (bool * MainWindow) :=
  match current_editor self with
  | None => mret (true, self)
  | Some text =>
      errs ← lint text;
      match errs with
      | [] => mret (true, setHtml html_no_issues self)
      | _ => mret (false, setHtml (join (of_string "<br>") (html_entry <$> errs)) self)
      end
  end.

(** ** The scan as a sequence of loop iterations

    Every iteration of the inner loop reads one character [ch] at line
    [i], column [j], together with the character before it on the same
    line. A [Cell] is that view; [doc_cells] lists the iterations of the
    two loops in the order they run, and [step] is [body] with its
    subscripts resolved. Lemma [for_lines_run] relates them to the loops. *)
Record Cell : Type := mkCell {
  cell_prev : option char;
  cell_ch : char;
  cell_line : nat;
  cell_col : nat
}.

Definition step (st : ScanState) (c : Cell) : ScanState :=
  let ch := cell_ch c in
  let i := cell_line c in
  let j := cell_col c in
  if is_quote ch && negb (bool_decide (cell_prev c = Some c_backslash)) then
    if negb (in_string st) then enter_string ch i j st
    else if bool_decide (Some ch = string_char st) then exit_string st
    else st
  else if negb (in_string st) then
    if is_opener ch then set_stack (stack st ++ [(ch, i, j)]) st
    else if is_closer ch then
      match last (stack st) with
      | Some top =>
          if bool_decide (pairs !! ch = Some top.1.1)
          then set_stack (removelast (stack st)) st
          else add_error (closing_error ch i j) st
      | None => add_error (closing_error ch i j) st
      end
    else st
  else st.

Definition run (cells : list Cell) (st : ScanState) : ScanState :=
  foldl step st cells.

(** The iterations over [rest = line[j:]], [prev] being [line[j-1]]. *)
Fixpoint line_cells (i j : nat) (prev : option char) (rest : str) : list Cell :=
  match rest with
  | [] => []
  | ch :: rest' =>
      {| cell_prev := prev; cell_ch := ch; cell_line := i; cell_col := j |}
      :: line_cells i (j + 1) (Some ch) rest'
  end.

Fixpoint doc_cells (i : nat) (lines : list str) : list Cell :=
  match lines with
  | [] => []
  | text_line :: lines' =>
      line_cells i 0 None text_line ++ doc_cells (i + 1) lines'
  end.

(** A quote that is not preceded by a backslash. *)
Definition unescaped (q : char) (c : Cell) : bool :=
  bool_decide (cell_ch c = q)
  && negb (bool_decide (cell_prev c = Some c_backslash)).

(** Position order of the scan: by line, then by column. *)
Definition pos_lt (a b : nat * nat) : Prop :=
  a.1 < b.1 ∨ (a.1 = b.1 ∧ a.2 < b.2).

Definition opening_pos (e : Opening) : nat * nat := (e.1.2, e.2).
Definition cell_pos (c : Cell) : nat * nat := (cell_line c, cell_col c).

(** ** Invariants of the scan state *)

(** Where the contents of a scan state come from: every diagnostic in
    [errors] was appended for a closing bracket read in a cell that
    satisfies [P], every entry of [stack] was pushed for an opening
    bracket read in such a cell, and the start recorded for an open
    string is the position of a quote read in such a cell. *)
Definition origin (P : Cell → Prop) (st : ScanState) : Prop :=
  Forall (λ e, ∃ c, P c ∧ is_closer (cell_ch c) = true
                 ∧ e = closing_error (cell_ch c) (cell_line c) (cell_col c))
         (errors st)
  ∧ Forall (λ o, ∃ c, P c ∧ is_opener (cell_ch c) = true
                   ∧ o = (cell_ch c, cell_line c, cell_col c))
           (stack st)
  ∧ (in_string st = true →
     ∃ c, P c ∧ is_quote (cell_ch c) = true
          ∧ string_char st = Some (cell_ch c)
          ∧ string_start_line st = Some (cell_line c)
          ∧ string_start_col st = Some (cell_col c)).

(** The cell reads character [cell_col] (counted from 0) of line number
    [cell_line] (counted from 1) of [lines]. *)
Definition cell_in_doc (lines : list str) (c : Cell) : Prop :=
  1 ≤ cell_line c
  ∧ ∃ l, lines !! (cell_line c - 1) = Some l
         ∧ l !! cell_col c = Some (cell_ch c).

Definition cell_before (a b : Cell) : Prop := pos_lt (cell_pos a) (cell_pos b).

(** [a] was opened at an earlier position of the document than [b]. *)
Definition opened_before (a b : Opening) : Prop :=
  pos_lt (opening_pos a) (opening_pos b).

(** ** The syntax highlighter: block comments ([highlightBlock])

    [GSCSyntaxHighlighter.highlightBlock] first applies its regular
    expressions and then marks the block comments of the line. The calls
    of [setFormat] made for the regular expressions depend on the regex
    engine and are an input here; the block-comment pass is embedded from
    the source. *)

(** [text.find(sub, start)]: the lowest index at or after [start] where
    [sub] occurs in [text], or -1. A negative [start] counts from the end. *)
Fixpoint find_at (sub l : str) (i : Z) : Z :=
  if bool_decide (sub `prefix_of` l) then i
  else match l with
       | [] => (-1)%Z
       | _ :: l' => find_at sub l' (i + 1)%Z
       end.

Definition find (text sub : str) (start : Z) : Z :=
  let n := Z.of_nat (length text) in
  let s := if (start <? 0)%Z then Z.max 0 (n + start) else start in
  if (n <? s)%Z then (-1)%Z
  else find_at sub (drop (Z.to_nat s) text) s.

Inductive Format : Type :=
  | keyword_format
  | builtin_format
  | string_format
  | comment_format
  | number_format
  | function_format.

(** A call [setFormat(start, length, format)]. *)
Definition SetFormat : Type := Z * Z * Format.

Definition comment_open : str := of_string "/*".
Definition comment_close : str := of_string "*/".

(** One iteration of [while start_index >= 0]: the call of [setFormat]
    it makes, the next [start_index] and the block state after it. *)
Definition comment_body (text : str) (start_index block_state : Z)
  : SetFormat * Z * Z :=
  let end_index := find text comment_close start_index in
  let block_state' :=
    if (end_index =? -1)%Z then 1%Z else block_state in
  let comment_length :=
    if (end_index =? -1)%Z
    then (Z.of_nat (length text) - start_index)%Z
    else (end_index - start_index + 2)%Z in
  ((start_index, comment_length, comment_format),
   find text comment_open (start_index + comment_length)%Z,
   block_state').

(** [while start_index >= 0: ...], with the calls made so far and the
    current block state. [None]: the fuel ran out before the loop ended. *)
Fixpoint comment_loop (fuel : nat) (text : str) (start_index : Z)
    (calls : list SetFormat) (block_state : Z) : option (list SetFormat * Z) :=
  if (0 <=? start_index)%Z then
    match fuel with
    | 0 => None
    | S fuel' =>
        let '(call, next_index, block_state') :=
          comment_body text start_index block_state in
        comment_loop fuel' text next_index (calls ++ [call]) block_state'
    end
  else Some (calls, block_state).

(** The calls of [setFormat], in order, and the block state set for the
    line. [rule_calls] are the calls of the regular-expression loop. *)
Definition highlightBlock (rule_calls : list SetFormat)
    (previousBlockState : Z) (text : str) : option (list SetFormat * Z) :=
  let start_index :=
    if bool_decide (previousBlockState ≠ 1%Z)
    then find text comment_open 0 else 0%Z in
  comment_loop (S (length text)) text start_index rule_calls 0.

(** The characters of [text] covered by a call. *)
Definition covered (text : str) (c : SetFormat) : str :=
  take (Z.to_nat c.1.2) (drop (Z.to_nat c.1.1) text).

(** [sub] occurs in [text] at index [k]. *)
Definition occurs_at (sub text : str) (k : nat) : Prop :=
  sub `prefix_of` drop k text.

(** The call lies inside the text and formats a comment. *)
Definition in_text (text : str) (c : SetFormat) : Prop :=
  (0 ≤ c.1.1)%Z ∧ (0 ≤ c.1.2)%Z
  ∧ (c.1.1 + c.1.2 ≤ Z.of_nat (length text))%Z
  ∧ c.2 = comment_format.

(** The range of [a] ends before the range of [b] starts. *)
Definition range_before (a b : SetFormat) : Prop :=
  (a.1.1 + a.1.2 ≤ b.1.1)%Z.

(** Index [k] is in the range of the call. *)
Definition in_range (k : nat) (c : SetFormat) : Prop :=
  (c.1.1 ≤ Z.of_nat k)%Z ∧ (Z.of_nat k < c.1.1 + c.1.2)%Z.

(** The characters covered by the call end with the closing marker. *)
Definition closed_comment (text : str) (c : SetFormat) : Prop :=
  comment_close `suffix_of` covered text c.

(** The characters covered by the call start with the opening marker. *)
Definition opened_comment (text : str) (c : SetFormat) : Prop :=
  comment_open `prefix_of` covered text c.

(** ** Recent files ([add_recent_file], [update_recent_menu],
    [clear_recent_files]) *)

(** An item of a list or other iterable read from [QSettings]: a string,
    or a value of another type, which is true or false as a condition
    and equal to no string. *)
Inductive PyItem : Type :=
  | ItemStr (s : str)
  | ItemOther (truth : bool).

#[export] Instance PyItem_eq_dec : EqDecision PyItem.
Proof. solve_decision. Defined.

(** A value read from [QSettings]: [None], a string, a list, another
    iterable (a dict, whose items are its keys, a tuple, a byte array, a
    set; [reversible] tells whether [reversed] accepts it), or a value
    that is not iterable and is true or false as a condition. *)
Inductive QVariant : Type :=
  | QNone
  | QStr (s : str)
  | QList (l : list PyItem)
  | QIterable (items : list PyItem) (reversible : bool)
  | QOther (truth : bool).

(** An item as a condition ([if not path]). *)
Definition item_truthy (i : PyItem) : bool :=
  match i with
  | ItemStr s => negb (bool_decide (s = []))
  | ItemOther b => b
  end.

(** The value as a condition ([if v], [v or d]). *)
Definition truthy (v : QVariant) : bool :=
  match v with
  | QNone => false
  | QStr s => negb (bool_decide (s = []))
  | QList l => negb (bool_decide (l = []))
  | QIterable l _ => negb (bool_decide (l = []))
  | QOther b => b
  end.

(** [for r in v]: the items, or [None] when [v] is not iterable and
    [TypeError] is raised. A string iterates over its characters. *)
Definition iter_items (v : QVariant) : option (list PyItem) :=
  match v with
  | QList l => Some l
  | QIterable l _ => Some l
  | QStr s => Some ((λ c, ItemStr [c]) <$> s)
  | QNone => None
  | QOther _ => None
  end.

(** [reversed(v)]: the items from the last to the first, or [None] when
    [TypeError] is raised. *)
Definition reversed_items (v : QVariant) : option (list PyItem) :=
  match v with
  | QList l => Some (reverse l)
  | QIterable l true => Some (reverse l)
  | QStr s => Some (reverse ((λ c, ItemStr [c]) <$> s))
  | QIterable _ false => None
  | QNone => None
  | QOther _ => None
  end.

(** An entry of the recent-files menu. *)
Inductive MenuItem : Type :=
  | FileAction (path : str)
  | Separator
  | ClearRecentAction.

(** The settings store and the recent-files menu of the window. *)
Record RecentState : Type := mkRecentState {
  settings : gmap string QVariant;
  recent_menu : list MenuItem
}.

(** [self.settings.value('recentFiles', []) or []], then a single string
    is wrapped in a list. *)
Definition recent_value (s : gmap string QVariant) : QVariant :=
  let v := default (QList []) (s !! "recentFiles") in
  let v := if truthy v then v else QList [] in
  match v with
  | QStr x => QList [ItemStr x]
  | _ => v
  end.

(** The body of [for path in reversed(recent)]: an item that is false as
    a condition is skipped; [QAction(path, self)] takes a string and
    raises [TypeError] for anything else. *)
Fixpoint file_actions (paths : list PyItem) : option (list MenuItem) :=
  match paths with
  | [] => Some []
  | path :: rest =>
      if negb (item_truthy path) then file_actions rest
      else match path with
           | ItemStr s => actions ← file_actions rest; Some (FileAction s :: actions)
           | ItemOther _ => None
           end
  end.

(** [update_recent_menu]: the menu is cleared and filled again, newest
    file first; a value that is true as a condition is followed by a
    separator and the Clear Recent action. [None]: an exception was
    raised (no handler surrounds the loop). *)
Definition update_recent_menu (st : RecentState) : option RecentState :=
  let recent := recent_value (settings st) in
  paths ← reversed_items recent;
  actions ← file_actions paths;
  let tail_items :=
    if truthy recent then [Separator; ClearRecentAction] else [] in
  Some {| settings := settings st; recent_menu := actions ++ tail_items |}.

(** [recent[-10:]] *)
Definition last_ten {A} (l : list A) : list A := drop (length l - 10) l.

(** [add_recent_file]. The list comprehension over a value that is not
    iterable raises, and the handler starts from the empty list. *)
Definition add_recent_file (filename : str) (st : RecentState)
  : option RecentState :=
  if bool_decide (filename = []) then Some st
  else
    let recent :=
      match iter_items (recent_value (settings st)) with
      | Some l => filter (λ r, r ≠ ItemStr filename) l
      | None => []
      end in
    let recent := last_ten (recent ++ [ItemStr filename]) in
    update_recent_menu
      {| settings := <["recentFiles" := QList recent]> (settings st);
         recent_menu := recent_menu st |}.

Definition clear_recent_files (st : RecentState) : option RecentState :=
  update_recent_menu
    {| settings := <["recentFiles" := QList []]> (settings st);
       recent_menu := recent_menu st |}.

(** The string of an item that is a string. *)
Definition item_string (i : PyItem) : option str :=
  match i with
  | ItemStr s => Some s
  | ItemOther _ => None
  end.

(** The stored list of recent files, when the store holds a list of
    strings. *)
Definition recent_files (st : RecentState) : option (list str) :=
  match settings st !! "recentFiles" with
  | Some (QList l) => mapM item_string l
  | _ => None
  end.

(** The items [add_recent_file] starts from: those of the stored list or
    other iterable, a stored single path, or nothing. *)
Definition recent_items (st : RecentState) : list PyItem :=
  default [] (iter_items (recent_value (settings st))).

(** The file names among them. *)
Definition known_recent (st : RecentState) : list str :=
  omap item_string (recent_items st).

(** Every item of the stored value is a string. This holds for the
    values the window itself stores, for [None], for a single string and
    for a value that is not iterable. *)
Definition string_items (st : RecentState) : Prop :=
  Forall (λ i, is_Some (item_string i)) (recent_items st).

(** ** The injection manager (src/injection_manager.py)

    The manager builds paths with [pathlib], reads the environment and
    the process table, creates directories and writes files. What the
    operating system and [pathlib] do is an interface here; the manager's
    own code is embedded over it. *)
Class Platform : Type := {
  (** a [pathlib.Path] *)
  Path : Type;
  (** the state of the file system, environment and process table *)
  World : Type;
  (** [Path(s)] *)
  path_of : str → Path;
  (** [str(p)] *)
  path_str : Path → str;
  (** [p / s]; [p / Path(s)] is the same path *)
  joinpath : Path → str → Path;
  (** [p.is_absolute()] *)
  is_absolute : Path → bool;
  (** [os.getenv('LOCALAPPDATA')] *)
  getenv_localappdata : World → option str;
  (** [p.exists()] *)
  path_exists : Path → World → bool;
  (** [p.mkdir(parents=True, exist_ok=True)] inside [try]: the world
      after the call, whether it raised or not *)
  mkdir_parents : Path → World → World;
  (** [open(p, 'w')] and [f.write(content)] inside [try]: the world after
      it, and [str(e)] when an exception [e] was raised *)
  write_text : Path → str → World → World * option str;
  (** [[p.name() for p in psutil.process_iter(['name'])]] *)
  running_process_names : World → list str
}.

(** [TargetGame], [InjectionMethod] and [GameMode] are [IntEnum]s; their
    members compare and hash as their integer values. *)
Definition PLUTONIUM_T6 : Z := 0.
Definition PLUTONIUM_T5 : Z := 1.
Definition PLUTONIUM_T4 : Z := 2.
Definition PLUTONIUM_IW5 : Z := 3.

Definition PLUTONIUM_SCRIPTS : Z := 0.
Definition DIRECT_MEMORY : Z := 1.
Definition NETWORK : Z := 2.

Definition MULTIPLAYER : Z := 0.
Definition ZOMBIES : Z := 1.
Definition BOTH : Z := 2.

(** The attributes of an [InjectionManager]. A path is [None] or a
    string. *)
Record InjectionManager : Type := mkInjectionManager {
  plutonium_path : option str;
  custom_paths : gmap Z (option str)
}.

(** An optional string as a condition: [None] and the empty string are
    false. *)
Definition nonempty (s : option str) : bool :=
  match s with
  | Some (_ :: _) => true
  | _ => false
  end.

(** [set_custom_paths]: every value is kept as a string, or becomes
    [None] when it is empty; no overrides give the empty dict. *)
Definition set_custom_paths (overrides : gmap Z str) (self : InjectionManager)
  : InjectionManager :=
  {| plutonium_path := plutonium_path self;
     custom_paths :=
       (λ v : str, if nonempty (Some v) then Some v else None) <$> overrides |}.

Definition get_plutonium_path `{Platform} (w : World) : option str :=
  let localappdata := getenv_localappdata w in
  if negb (nonempty localappdata) then None
  else
    let plut_path :=
      joinpath (joinpath (path_of (default [] localappdata))
                  (of_string "Plutonium")) (of_string "storage") in
    if path_exists plut_path w then Some (path_str plut_path) else None.

(** The dict [paths] of [get_script_path]. *)
Definition script_paths `{Platform} (base : Path) : gmap Z (gmap Z Path) :=
  let dir (parts : list string) : Path :=
    foldl (λ p s, joinpath p (of_string s)) base parts in
  {[ PLUTONIUM_T6 :=
       {[ MULTIPLAYER := dir ["t6"; "scripts"; "mp"];
          ZOMBIES := dir ["t6"; "scripts"; "zm"];
          BOTH := dir ["t6"; "scripts"] ]};
     PLUTONIUM_T5 :=
       {[ MULTIPLAYER := dir ["t5"; "raw"; "scripts"; "mp"];
          ZOMBIES := dir ["t5"; "raw"; "scripts"; "zm"];
          BOTH := dir ["t5"; "raw"; "scripts"] ]};
     PLUTONIUM_T4 :=
       {[ MULTIPLAYER := dir ["t4"; "scripts"; "mp"];
          ZOMBIES := dir ["t4"; "scripts"; "zm"];
          BOTH := dir ["t4"; "scripts"] ]};
     PLUTONIUM_IW5 :=
       {[ MULTIPLAYER := dir ["iw5"; "scripts"; "mp"];
          ZOMBIES := dir ["iw5"; "scripts"; "zm"];
          BOTH := dir ["iw5"; "scripts"] ]} ]}.

(** The base folder of [get_script_path]: the Plutonium path, replaced by
    an absolute override or extended by a relative one. *)
Definition script_base `{Platform} (self : InjectionManager) (game : Z) : Path :=
  let base := path_of (default [] (plutonium_path self)) in
  let override := default None (custom_paths self !! game) in
  if nonempty override then
    let ov := path_of (default [] override) in
    if is_absolute ov then ov else joinpath base (default [] override)
  else base.

(** [get_script_path]: the folder as a string, or [None], and the world
    after the attempt to create the folder. A [Path] is true as a
    condition, so [if not base] is never taken. *)
Definition get_script_path `{Platform} (self : InjectionManager)
    (game mode : Z) (w : World) : option str * World :=
  if negb (nonempty (plutonium_path self)) then (None, w)
  else
    match script_paths (script_base self game) !! game with
    | None => (None, w)
    | Some game_paths =>
        match (match game_paths !! mode with
               | Some p => Some p
               | None => game_paths !! BOTH
               end) with
        | Some target_path =>
            (Some (path_str target_path), mkdir_parents target_path w)
        | None =>
            (* [None.mkdir] raises inside [try]; [str(None)] is returned *)
            (Some (of_string "None"), w)
        end
    end.

(** [s.endswith(suffix)] *)
Definition endswith (s suffix : str) : bool :=
  bool_decide (suffix `suffix_of` s).

Definition gsc_extension : str := of_string ".gsc".

(** The file name [_inject_plutonium] writes to. *)
Definition deployed_name (script_name : str) : str :=
  if negb (endswith script_name gsc_extension)
  then script_name ++ gsc_extension else script_name.

Definition _inject_plutonium `{Platform} (self : InjectionManager)
    (script : str) (game mode : Z) (script_name : str) (w : World)
  : (bool * str) * World :=
  let '(script_path, w) := get_script_path self game mode w in
  if negb (nonempty script_path) then
    ((false, of_string "Plutonium not found. Install Plutonium first."), w)
  else
    let script_name := deployed_name script_name in
    let full_path := joinpath (path_of (default [] script_path)) script_name in
    let '(w, raised) := write_text full_path script w in
    match raised with
    | None =>
        ((true, of_string "Script deployed successfully to:" ++ [10%N]
                ++ path_str full_path), w)
    | Some e => ((false, of_string "Failed to write script: " ++ e), w)
    end.

Definition inject_script `{Platform} (self : InjectionManager)
    (script : str) (game method mode : Z) (script_name : str) (w : World)
  : (bool * str) * World :=
  if bool_decide (method = PLUTONIUM_SCRIPTS) then
    _inject_plutonium self script game mode script_name w
  else if bool_decide (method = DIRECT_MEMORY) then
    ((false, of_string "Direct memory injection not recommended for Plutonium. Use Scripts method."), w)
  else if bool_decide (method = NETWORK) then
    ((false, of_string "Network injection coming soon for console modding."), w)
  else ((false, of_string "Unknown injection method"), w).

(** The dict [process_names] of [is_game_running]. *)
Definition process_names : gmap Z (list str) :=
  {[ PLUTONIUM_T6 := of_string <$> ["plutonium-bootstrapper-win32.exe";
                                    "t6mp.exe"; "t6zm.exe"];
     PLUTONIUM_T5 := of_string <$> ["plutonium-bootstrapper-win32.exe";
                                    "t5mp.exe"; "t5zm.exe"];
     PLUTONIUM_T4 := of_string <$> ["plutonium-bootstrapper-win32.exe";
                                    "t4mp.exe"; "t4zm.exe"];
     PLUTONIUM_IW5 := of_string <$> ["plutonium-bootstrapper-win32.exe";
                                     "iw5mp.exe"] ]}.

(** [any(proc in running_processes for proc in target_processes)] *)
Definition is_game_running `{Platform} (game : Z) (w : World) : bool :=
  let target_processes := default [] (process_names !! game) in
  let running_processes := running_process_names w in
  existsb (λ proc, bool_decide (proc ∈ running_processes)) target_processes.

(** A platform for the examples: paths are strings joined with a slash,
    absolute when they start with one; the world is the list of files
    written, latest first; every directory exists and every write
    succeeds; no process runs. *)
Definition example_platform : Platform :=
  {| Path := str;
     World := list (str * str);
     path_of := λ s, s;
     path_str := λ p, p;
     joinpath := λ p s, p ++ [47%N] ++ s;
     is_absolute := λ p, match p with c :: _ => (c =? 47)%N | [] => false end;
     getenv_localappdata := λ _, Some (of_string "/home/user/AppData/Local");
     path_exists := λ _ _, true;
     mkdir_parents := λ _ w, w;
     write_text := λ p content w, ((p, content) :: w, None);
     running_process_names := λ _, [] |}.

(** ** Editor font size, theme and line-number area (src/main.py) *)

(** [set_editor_font_size]: from the font's point size and [delta], the
    point size that is set on the font and stored in the settings. *)
Definition set_editor_font_size (delta : Z) (pointSize : Z) : Z :=
  let size := pointSize in
  let size := if (size <? 6)%Z then 11%Z else size in
  Z.max 6 (size + delta).

(** The style sheet of the window: the light one of [apply_theme] or the
    stored base style sheet. *)
Inductive StyleSheet : Type :=
  | light_css
  | base_css.

(** What [apply_theme] and [toggle_theme] read and write. [current_theme]
    is [None] while the attribute is not set. *)
Record ThemeState : Type := mkThemeState {
  current_theme : option str;
  style_sheet : StyleSheet;
  saved_theme : option str
}.

Definition apply_theme (theme_name : str) (st : ThemeState) : ThemeState :=
  let theme_name :=
    match theme_name with [] => of_string "dark" | _ => theme_name end in
  {| current_theme := Some theme_name;
     style_sheet :=
       if bool_decide (theme_name = of_string "light")
       then light_css else base_css;
     saved_theme := Some theme_name |}.

Definition toggle_theme (st : ThemeState) : ThemeState :=
  let new_theme :=
    if bool_decide (default (of_string "dark") (current_theme st)
                    = of_string "dark")
    then of_string "light" else of_string "dark" in
  apply_theme new_theme st.

(** [line_number_area_width]: [advance9] is the width of the digit 9 in
    the editor's font. *)
Definition line_number_area_width (advance9 blockCount : Z) : Z :=
  let digits :=
    Z.of_nat (length (of_string (pretty (Z.max 1 blockCount)))) in
  let space := (10 + advance9 * digits)%Z in
  space.

(** The position a diagnostic is anchored at. *)
Definition diag_pos (d : Diagnostic) : nat * nat := (line d, col d).

Definition reported_before (a b : Diagnostic) : Prop :=
  pos_lt (diag_pos a) (diag_pos b).

(** A character that is neither a quote nor a bracket. *)
Definition plain_char (ch : char) : Prop :=
  is_quote ch = false ∧ is_opener ch = false ∧ is_closer ch = false.

(** The number of diagnostics a scan state stands for: the errors found,
    the open brackets, and the open string. *)
Definition pending (st : ScanState) : nat :=
  length (errors st) + length (stack st) + (if in_string st then 1 else 0).

(** ** The local variables of [lint_script] across calls

    [lint_script] keeps its scan state in local variables and assigns
    each of them before the loops. To state that nothing of one call can
    reach the next, the call is also written over the frame of these
    variables as it might be found on entry: whatever they hold (the
    values a previous scan left, or anything else) is overwritten by the
    assignments below, and the frame the call leaves is returned with the
    result. *)

(** [stack = []], [errors = []], [in_string = False], [string_char = None],
    [string_start_line = None], [string_start_col = None], one
    assignment after the other. *)
Definition reset_locals (frame : ScanState) : ScanState :=
  let frame :=
    {| stack := []; errors := errors frame; in_string := in_string frame;
       string_char := string_char frame;
       string_start_line := string_start_line frame;
       string_start_col := string_start_col frame |} in
  let frame :=
    {| stack := stack frame; errors := []; in_string := in_string frame;
       string_char := string_char frame;
       string_start_line := string_start_line frame;
       string_start_col := string_start_col frame |} in
  let frame :=
    {| stack := stack frame; errors := errors frame; in_string := false;
       string_char := string_char frame;
       string_start_line := string_start_line frame;
       string_start_col := string_start_col frame |} in
  let frame :=
    {| stack := stack frame; errors := errors frame;
       in_string := in_string frame; string_char := None;
       string_start_line := string_start_line frame;
       string_start_col := string_start_col frame |} in
  let frame :=
    {| stack := stack frame; errors := errors frame;
       in_string := in_string frame; string_char := string_char frame;
       string_start_line := None;
       string_start_col := string_start_col frame |} in
  {| stack := stack frame; errors := errors frame;
     in_string := in_string frame; string_char := string_char frame;
     string_start_line := string_start_line frame;
     string_start_col := None |}.

(** The frame after the reporting steps: [errors] has received the
    diagnostics of the end of the scan. *)
Definition finish_locals (st : ScanState) : ScanState :=
  {| stack := stack st; errors := report st; in_string := in_string st;
     string_char := string_char st;
     string_start_line := string_start_line st;
     string_start_col := string_start_col st |}.

(** [lint_script] run on the frame [frame]: the returned flag, the window
    and the frame after the call. *)
Definition lint_script_from (frame : ScanState) (self : MainWindow)
  : result (bool * MainWindow * ScanState) :=
  match current_editor self with
  | None => mret (true, self, frame)
  | Some text =>
      st ← for_lines 1 (splitlines text) (reset_locals frame);
      let frame' := finish_locals st in
      match errors frame' with
      | [] => mret (true, setHtml html_no_issues self, frame')
      | errs =>
          mret (false,
                setHtml (join (of_string "<br>") (html_entry <$> errs)) self,
                frame')
      end
  end.

(** * Properties *)

(** ** The loops and their iterations *)

Lemma bind_Ok {A B} (f : A → result B) (a : A) : Ok a ≫= f = f a.
Proof. reflexivity. Qed.

Lemma pairs_closer ch :
  is_closer ch = true →
  (ch = c_rbrace ∧ pairs !! ch = Some c_lbrace)
  ∨ (ch = c_rparen ∧ pairs !! ch = Some c_lparen)
  ∨ (ch = c_rbracket ∧ pairs !! ch = Some c_lbracket).
Proof.
  unfold is_closer. rewrite !orb_true_iff, !N.eqb_eq.
  intros [[->| ->]| ->]; [left | right; left | right; right];
    (split; [reflexivity | vm_compute; reflexivity]).
Qed.

Lemma pairs_is_Some ch : is_closer ch = true → is_Some (pairs !! ch).
Proof.
  intros H. destruct (pairs_closer ch H) as [[_ E]|[[_ E]|[_ E]]];
    rewrite E; eauto.
Qed.

(** The subscripts of [body] succeed inside the line, and [body] then
    does what [step] does. *)
Lemma body_step i j (text_line : str) st ch :
  text_line !! j = Some ch →
  body i j text_line st
  = Ok (step st {| cell_prev := if bool_decide (0 < j)
                                then text_line !! (j - 1) else None;
                   cell_ch := ch; cell_line := i; cell_col := j |}).
Proof.
  intros Hj. unfold body, getitem. rewrite Hj, bind_Ok.
  assert (Hprev : (if bool_decide (0 < j)
                   then Some <$> (match text_line !! (j - 1) with
                                  | Some x => Ok x
                                  | None => Raise IndexError
                                  end)
                   else mret None)
                  = Ok (if bool_decide (0 < j)
                        then text_line !! (j - 1) else None)).
  { case_bool_decide as Hlt; [|reflexivity].
    destruct (lookup_lt_is_Some_2 text_line (j - 1)) as [p Hp].
    - apply lookup_lt_Some in Hj. lia.
    - rewrite Hp. reflexivity. }
  rewrite Hprev, bind_Ok. unfold step; simpl.
  destruct (is_quote ch && _).
  { destruct (negb (in_string st)); [reflexivity|].
    destruct (bool_decide (Some ch = string_char st)); reflexivity. }
  destruct (negb (in_string st)); [|reflexivity].
  destruct (is_opener ch); [reflexivity|].
  destruct (is_closer ch) eqn:Hc; [|reflexivity].
  destruct (pairs_is_Some ch Hc) as [want Hw].
  unfold getlast, pop, dict_get. rewrite Hw.
  destruct (last (stack st)) as [top|] eqn:Hl.
  - rewrite bool_decide_true; [|intros E; rewrite E in Hl; discriminate].
    rewrite !bind_Ok. unfold mret, result_ret.
    destruct (decide (top.1.1 = want)) as [E|E].
    + rewrite !bool_decide_true by congruence. reflexivity.
    + rewrite !bool_decide_false by congruence. reflexivity.
  - apply last_None in Hl. rewrite bool_decide_false by (intros E; done).
    reflexivity.
Qed.

Lemma while_j_run i (pre rest : str) st :
  while_j i (length pre) (pre ++ rest) rest st
  = Ok (run (line_cells i (length pre) (last pre) rest) st).
Proof.
  revert pre st. induction rest as [|ch rest IH]; intros pre st; [reflexivity|].
  simpl. rewrite (body_step _ _ _ _ ch).
  2:{ rewrite lookup_app_r, Nat.sub_diag by lia. reflexivity. }
  rewrite bind_Ok.
  replace (pre ++ ch :: rest) with ((pre ++ [ch]) ++ rest)
    by (rewrite <- app_assoc; reflexivity).
  replace (length pre + 1) with (length (pre ++ [ch]))
    by (rewrite length_app; reflexivity).
  rewrite IH. rewrite last_snoc. do 3 f_equal.
  rewrite <- app_assoc. simpl.
  destruct pre as [|p pre'] using rev_ind.
  - reflexivity.
  - rewrite last_snoc, length_app. simpl.
    rewrite bool_decide_true by lia.
    rewrite lookup_app_l by (rewrite length_app; simpl; lia).
    rewrite lookup_app_r by lia.
    replace (length pre' + 1 - 1 - length pre') with 0 by lia. reflexivity.
Qed.

Lemma run_app cs1 cs2 st : run (cs1 ++ cs2) st = run cs2 (run cs1 st).
Proof. unfold run. apply foldl_app. Qed.

Lemma for_lines_run i lines st :
  for_lines i lines st = Ok (run (doc_cells i lines) st).
Proof.
  revert i st. induction lines as [|l lines IH]; intros i st; [reflexivity|].
  simpl. pose proof (while_j_run i [] l st) as H. simpl in H. rewrite H.
  rewrite bind_Ok, IH, run_app. reflexivity.
Qed.

Lemma scan_run text :
  scan text = Ok (run (doc_cells 1 (splitlines text)) init_state).
Proof. apply for_lines_run. Qed.

Lemma lint_run text :
  lint text = Ok (report (run (doc_cells 1 (splitlines text)) init_state)).
Proof. unfold lint. rewrite scan_run. reflexivity. Qed.

(** ** Character classes *)

Lemma closer_not_quote ch : is_closer ch = true → is_quote ch = false.
Proof.
  intros H. destruct (pairs_closer ch H) as [[-> _]|[[-> _]|[-> _]]];
    reflexivity.
Qed.

Lemma closer_not_opener ch : is_closer ch = true → is_opener ch = false.
Proof.
  intros H. destruct (pairs_closer ch H) as [[-> _]|[[-> _]|[-> _]]];
    reflexivity.
Qed.

Lemma quote_not_bracket ch :
  is_quote ch = true → is_opener ch = false ∧ is_closer ch = false.
Proof.
  unfold is_quote. rewrite orb_true_iff, !N.eqb_eq.
  intros [->| ->]; split; reflexivity.
Qed.

(** ** Closing brackets *)

Section closing_bracket.
Variables (i j : nat) (text_line : str) (st : ScanState) (ch : char).
Hypothesis Hch : text_line !! j = Some ch.
Hypothesis Hcloser : is_closer ch = true.
Hypothesis Hout : in_string st = false.

Lemma closing_step_eq :
  body i j text_line st
  = Ok (match last (stack st) with
        | Some top =>
            if bool_decide (pairs !! ch = Some top.1.1)
            then set_stack (removelast (stack st)) st
            else add_error (closing_error ch i j) st
        | None => add_error (closing_error ch i j) st
        end).
Proof.
  rewrite (body_step _ _ _ _ ch Hch). unfold step; simpl.
  rewrite (closer_not_quote _ Hcloser), (closer_not_opener _ Hcloser).
  rewrite Hout, Hcloser. reflexivity.
Qed.

(** C1: a closing bracket met outside a string pops the top of the
    stack, and reports nothing, when the stack is non-empty and its top
    holds the opener that [pairs] gives for the closer; in every other
    case it appends the diagnostic Unmatched closing with the closer at
    (line, col) with length 1 and leaves the stack as it was. *)
Theorem closing_bracket_pops_or_reports :
  (∀ s top, stack st = s ++ [top] → pairs !! ch = Some top.1.1 →
     body i j text_line st = Ok (set_stack s st)
     ∧ errors (set_stack s st) = errors st)
  ∧ ((stack st = []
      ∨ ∃ s top, stack st = s ++ [top] ∧ pairs !! ch ≠ Some top.1.1) →
     let e := {| line := i; col := j; len := 1;
                 msg := of_string "Unmatched closing '" ++ [ch]
                        ++ of_string "'" |} in
     body i j text_line st = Ok (add_error e st)
     ∧ stack (add_error e st) = stack st
     ∧ errors (add_error e st) = errors st ++ [e]).
Proof.
  split.
  - intros s top Hs Hp. split; [|reflexivity].
    rewrite closing_step_eq, Hs, last_snoc.
    rewrite bool_decide_true by done.
    rewrite removelast_last. reflexivity.
  - intros Hne e. split; [|split; reflexivity].
    rewrite closing_step_eq.
    destruct Hne as [Hnil|(s & top & Hs & Hp)].
    + rewrite Hnil. reflexivity.
    + rewrite Hs, last_snoc. rewrite bool_decide_false by done.
      reflexivity.
Qed.
End closing_bracket.

Lemma closing_bracket_pops_or_reports_witness :
  (body 1 1 (of_string "()") (set_stack [(c_lparen, 1, 0)] init_state)
   = Ok (set_stack [] (set_stack [(c_lparen, 1, 0)] init_state)))
  ∧ (body 1 1 (of_string "(]") (set_stack [(c_lparen, 1, 0)] init_state)
     = Ok (add_error (closing_error c_rbracket 1 1)
             (set_stack [(c_lparen, 1, 0)] init_state))).
Proof.
  split.
  - destruct (closing_bracket_pops_or_reports 1 1 (of_string "()")
                (set_stack [(c_lparen, 1, 0)] init_state) c_rparen
                eq_refl eq_refl eq_refl) as [Hpop _].
    apply (Hpop [] (c_lparen, 1, 0)); [reflexivity|].
    vm_compute. reflexivity.
  - destruct (closing_bracket_pops_or_reports 1 1 (of_string "(]")
                (set_stack [(c_lparen, 1, 0)] init_state) c_rbracket
                eq_refl eq_refl eq_refl) as [_ Hrep].
    apply Hrep.
    right. exists [], (c_lparen, 1, 0). split; [reflexivity|].
    vm_compute. discriminate.
Defined.

(** The document with an opening parenthesis closed by a square bracket:
    the closer is reported at line 1, column 1, and the parenthesis, still
    on the stack, at line 1, column 0. *)
Example lint_paren_bracket :
  lint (of_string "(]")
  = Ok [ {| line := 1; col := 1; len := 1;
            msg := of_string "Unmatched closing ']'" |};
         {| line := 1; col := 0; len := 1;
            msg := of_string "Unmatched opening '('" |} ].
Proof. vm_compute. reflexivity. Qed.

(** ** Quotes *)

Section quotes.
Variables (i j : nat) (text_line : str) (st : ScanState) (ch : char).
Hypothesis Hch : text_line !! j = Some ch.
Hypothesis Hquote : is_quote ch = true.

Lemma escaped_quote_step :
  0 < j → text_line !! (j - 1) = Some c_backslash →
  body i j text_line st = Ok st.
Proof.
  intros Hj Hp. rewrite (body_step _ _ _ _ ch Hch). unfold step; simpl.
  rewrite (bool_decide_true (0 < j)) by lia. rewrite Hp.
  rewrite (bool_decide_true (Some c_backslash = _)) by reflexivity.
  rewrite andb_false_r.
  destruct (quote_not_bracket _ Hquote) as [-> ->].
  destruct (negb (in_string st)); reflexivity.
Qed.

Lemma quote_in_string_step :
  in_string st = true →
  body i j text_line st
  = Ok (if negb (bool_decide
                   ((if bool_decide (0 < j) then text_line !! (j - 1)
                     else None) = Some c_backslash))
           && bool_decide (Some ch = string_char st)
        then exit_string st else st).
Proof.
  intros Hin. rewrite (body_step _ _ _ _ ch Hch). unfold step; simpl.
  rewrite Hquote, Hin. simpl.
  destruct (negb _); simpl; reflexivity.
Qed.

(** C4: a quote whose preceding character on its line is a backslash
    leaves the scan state, string mode included, as it is; one more
    backslash before that backslash changes nothing; inside a string a
    quote other than the one that opened it leaves the state as it is;
    and an unescaped quote equal to the one that opened the string
    leaves string mode. *)
Theorem quote_rules :
  (0 < j → text_line !! (j - 1) = Some c_backslash →
     body i j text_line st = Ok st)
  ∧ (1 < j → text_line !! (j - 2) = Some c_backslash →
     text_line !! (j - 1) = Some c_backslash →
     body i j text_line st = Ok st)
  ∧ (in_string st = true → string_char st ≠ Some ch →
     body i j text_line st = Ok st)
  ∧ (in_string st = true → string_char st = Some ch →
     (j = 0 ∨ text_line !! (j - 1) ≠ Some c_backslash) →
     body i j text_line st = Ok (exit_string st))
  ∧ in_string (exit_string st) = false.
Proof.
  split; [|split; [|split; [|split]]].
  - apply escaped_quote_step.
  - intros Hj _ Hp. apply escaped_quote_step; [lia | exact Hp].
  - intros Hin Hne. rewrite (quote_in_string_step Hin).
    rewrite (bool_decide_false (Some ch = string_char st)) by congruence.
    rewrite andb_false_r. reflexivity.
  - intros Hin Hq Hp. rewrite (quote_in_string_step Hin).
    rewrite (bool_decide_true (Some ch = string_char st)) by congruence.
    rewrite andb_true_r.
    rewrite (bool_decide_false (_ = Some c_backslash)); [reflexivity|].
    case_bool_decide; [|discriminate].
    destruct Hp as [->|Hp]; [lia | exact Hp].
  - reflexivity.
Qed.
End quotes.

Lemma quote_rules_witness :
  let open := enter_string c_dquote 1 0 init_state in
  body 1 2 [c_dquote; c_backslash; c_dquote] open = Ok open
  ∧ body 1 3 [c_dquote; c_backslash; c_backslash; c_dquote] open = Ok open
  ∧ body 1 1 [c_dquote; c_squote] open = Ok open
  ∧ body 1 1 [c_dquote; c_dquote] open = Ok (exit_string open).
Proof.
  intros open. split; [|split; [|split]].
  - destruct (quote_rules 1 2 [c_dquote; c_backslash; c_dquote] open c_dquote
                eq_refl eq_refl) as (H & _).
    apply H; [simpl; lia | reflexivity].
  - destruct (quote_rules 1 3 [c_dquote; c_backslash; c_backslash; c_dquote]
                open c_dquote eq_refl eq_refl) as (_ & H & _).
    apply H; [simpl; lia | reflexivity | reflexivity].
  - destruct (quote_rules 1 1 [c_dquote; c_squote] open c_squote
                eq_refl eq_refl) as (_ & _ & H & _).
    apply H; [reflexivity | discriminate].
  - destruct (quote_rules 1 1 [c_dquote; c_dquote] open c_dquote
                eq_refl eq_refl) as (_ & _ & _ & H & _).
    apply H; [reflexivity | reflexivity | right; discriminate].
Defined.

(** ** What one iteration does to the stack *)

Lemma step_stack_cases st c :
  stack (step st c) = stack st
  ∨ (in_string st = false ∧ is_opener (cell_ch c) = true
     ∧ stack (step st c) = stack st ++ [(cell_ch c, cell_line c, cell_col c)])
  ∨ (in_string st = false ∧
     ∃ s top, stack st = s ++ [top] ∧ stack (step st c) = s
              ∧ pairs !! cell_ch c = Some top.1.1).
Proof.
  unfold step.
  destruct (is_quote (cell_ch c) && _).
  { left. destruct (negb (in_string st)); [reflexivity|].
    destruct (bool_decide _); reflexivity. }
  destruct (in_string st) eqn:Hin; simpl; [left; reflexivity|].
  destruct (is_opener (cell_ch c)) eqn:Ho.
  { right; left. auto. }
  destruct (is_closer (cell_ch c)); [|left; reflexivity].
  destruct (last (stack st)) as [top|] eqn:Hl; [|left; reflexivity].
  case_bool_decide as Hp; [|left; reflexivity].
  right; right. split; [reflexivity|].
  apply last_Some in Hl as [s Hs]. exists s, top.
  rewrite Hs at 1. simpl. rewrite Hs, removelast_last. auto.
Qed.

Lemma step_errors_cases st c :
  errors (step st c) = errors st
  ∨ (in_string st = false ∧ is_closer (cell_ch c) = true
     ∧ stack (step st c) = stack st
     ∧ errors (step st c)
       = errors st ++ [closing_error (cell_ch c) (cell_line c) (cell_col c)]).
Proof.
  unfold step.
  destruct (is_quote (cell_ch c) && _).
  { left. destruct (negb (in_string st)); [reflexivity|].
    destruct (bool_decide _); reflexivity. }
  destruct (in_string st) eqn:Hin; simpl; [left; reflexivity|].
  destruct (is_opener (cell_ch c)) eqn:Ho; [left; reflexivity|].
  destruct (is_closer (cell_ch c)); [|left; reflexivity].
  destruct (last (stack st)) as [top|] eqn:Hl; [|right; auto].
  case_bool_decide as Hp; [left; reflexivity | right; auto].
Qed.

(** ** Origin of the state's contents *)

Lemma origin_init P : origin P init_state.
Proof. split; [constructor|split; [constructor|discriminate]]. Qed.

Lemma Forall_removelast {A} (Q : A → Prop) (l : list A) :
  Forall Q l → Forall Q (removelast l).
Proof.
  destruct l as [|x l] using rev_ind; [auto|].
  rewrite removelast_last, Forall_app. tauto.
Qed.

Section origin_updates.
Variables (P : Cell → Prop) (st : ScanState) (c : Cell).
Hypothesis Hc : P c.
Hypothesis Hst : origin P st.

Lemma origin_enter :
  is_quote (cell_ch c) = true →
  origin P (enter_string (cell_ch c) (cell_line c) (cell_col c) st).
Proof.
  intros Hq. destruct Hst as (He & Hs & _).
  split; [exact He|split; [exact Hs|]]. intros _. exists c. auto.
Qed.

Lemma origin_exit : origin P (exit_string st).
Proof.
  destruct Hst as (He & Hs & _).
  split; [exact He|split; [exact Hs|discriminate]].
Qed.

Lemma origin_push :
  is_opener (cell_ch c) = true →
  origin P (set_stack (stack st ++ [(cell_ch c, cell_line c, cell_col c)]) st).
Proof.
  intros Ho. destruct Hst as (He & Hs & Hq).
  split; [exact He|split; [|exact Hq]]. simpl.
  rewrite Forall_app. split; [exact Hs|]. repeat constructor. eauto.
Qed.

Lemma origin_pop : origin P (set_stack (removelast (stack st)) st).
Proof.
  destruct Hst as (He & Hs & Hq).
  split; [exact He|split; [|exact Hq]]. apply Forall_removelast, Hs.
Qed.

Lemma origin_add_error :
  is_closer (cell_ch c) = true →
  origin P (add_error (closing_error (cell_ch c) (cell_line c) (cell_col c)) st).
Proof.
  intros Hcl. destruct Hst as (He & Hs & Hq).
  split; [|split; [exact Hs|exact Hq]]. simpl.
  rewrite Forall_app. split; [exact He|]. repeat constructor. eauto.
Qed.

Lemma step_origin : origin P (step st c).
Proof.
  unfold step.
  destruct (is_quote (cell_ch c) && _) eqn:Hquote.
  { apply andb_true_iff in Hquote as [Hquote _].
    destruct (negb (in_string st)); [apply origin_enter, Hquote|].
    destruct (bool_decide (Some _ = _)); [apply origin_exit | exact Hst]. }
  destruct (negb (in_string st)); [|exact Hst].
  destruct (is_opener (cell_ch c)) eqn:Ho; [apply origin_push, Ho|].
  destruct (is_closer (cell_ch c)) eqn:Hcl; [|exact Hst].
  destruct (last (stack st)); [|apply origin_add_error, Hcl].
  destruct (bool_decide (pairs !! _ = _));
    [apply origin_pop | apply origin_add_error, Hcl].
Qed.
End origin_updates.

Lemma run_origin P cs st :
  Forall P cs → origin P st → origin P (run cs st).
Proof.
  intros Hcs. revert st. induction Hcs as [|c cs Hc _ IH]; intros st Hst.
  - exact Hst.
  - simpl. apply IH, step_origin; assumption.
Qed.

(** The string variables are set and cleared together. *)
Lemma string_vars_inv cs :
  let st := run cs init_state in
  in_string st = true →
  ∃ q l c, is_quote q = true ∧ string_char st = Some q
           ∧ string_start_line st = Some l ∧ string_start_col st = Some c.
Proof.
  intros st Hin.
  destruct (run_origin (λ _, True) cs init_state) as (_ & _ & Hq).
  - apply Forall_forall. auto.
  - apply origin_init.
  - destruct (Hq Hin) as (c & _ & ? & ? & ? & ?). eauto 10.
Qed.

(** ** Positions of the iterations *)

Lemma line_cells_elem i j prev rest c :
  c ∈ line_cells i j prev rest → cell_line c = i ∧ j ≤ cell_col c.
Proof.
  revert j prev. induction rest as [|ch rest IH]; intros j prev; simpl.
  - intros H. inv H.
  - rewrite elem_of_cons. intros [->|H]; [simpl; lia|].
    apply IH in H. lia.
Qed.

Lemma line_cells_sorted i j prev rest :
  StronglySorted cell_before (line_cells i j prev rest).
Proof.
  revert j prev. induction rest as [|ch rest IH]; intros j prev; simpl.
  - constructor.
  - apply StronglySorted_cons. split; [|apply IH].
    apply Forall_forall. intros c Hc. apply line_cells_elem in Hc.
    right. simpl. lia.
Qed.

Lemma doc_cells_elem i lines c :
  c ∈ doc_cells i lines → i ≤ cell_line c.
Proof.
  revert i. induction lines as [|l lines IH]; intros i; simpl.
  - intros H. inv H.
  - rewrite elem_of_app. intros [H|H].
    + apply line_cells_elem in H. lia.
    + apply IH in H. lia.
Qed.

Lemma doc_cells_sorted i lines :
  StronglySorted cell_before (doc_cells i lines).
Proof.
  revert i. induction lines as [|l lines IH]; intros i; simpl.
  - constructor.
  - apply StronglySorted_app_2; [|apply line_cells_sorted|apply IH].
    intros c1 c2 H1 H2. apply line_cells_elem in H1.
    apply doc_cells_elem in H2. left. simpl. lia.
Qed.

(** The stack lists its entries by position: each push adds, at the end,
    an entry for a position after all those scanned before. *)
Lemma run_stack_sorted cs st :
  StronglySorted cell_before cs →
  StronglySorted opened_before (stack st) →
  (∀ o c, o ∈ stack st → c ∈ cs → pos_lt (opening_pos o) (cell_pos c)) →
  StronglySorted opened_before (stack (run cs st)).
Proof.
  revert st. induction cs as [|c cs IH]; intros st Hcs Hst Hlt; [exact Hst|].
  apply StronglySorted_cons in Hcs as [Hc Hcs]. rewrite Forall_forall in Hc.
  simpl. apply IH; [exact Hcs| |].
  - destruct (step_stack_cases st c) as [->|[(_ & _ & ->)|(_ & s & top & Hs & -> & _)]].
    + exact Hst.
    + apply StronglySorted_app_2; [|exact Hst|repeat constructor].
      intros o1 o2 H1 H2. apply list_elem_of_singleton in H2 as ->.
      apply (Hlt o1 c H1). left.
    + rewrite Hs in Hst. apply StronglySorted_app_1_l in Hst. exact Hst.
  - intros o c' Ho Hc'.
    destruct (step_stack_cases st c) as [E|[(_ & _ & E)|(_ & s & top & Hs & E & _)]];
      rewrite E in Ho.
    + apply Hlt; [exact Ho|right; exact Hc'].
    + apply elem_of_app in Ho as [Ho|Ho].
      * apply Hlt; [exact Ho|right; exact Hc'].
      * apply list_elem_of_singleton in Ho as ->. apply (Hc c'), Hc'.
    + apply Hlt; [|right; exact Hc']. rewrite Hs. apply elem_of_app. auto.
Qed.

Lemma scan_stack_sorted lines :
  StronglySorted opened_before (stack (run (doc_cells 1 lines) init_state)).
Proof.
  apply run_stack_sorted; [apply doc_cells_sorted|constructor|].
  intros o c H. inv H.
Qed.

(** ** The reporting steps *)

Lemma foldl_append_map {A B} (f : A → B) (acc : list B) (l : list A) :
  foldl (λ errs e, errs ++ [f e]) acc l = acc ++ (f <$> l).
Proof.
  revert acc. induction l as [|x l IH]; intros acc; simpl.
  - rewrite app_nil_r. reflexivity.
  - rewrite IH, <- app_assoc. reflexivity.
Qed.

Lemma report_in_string st l c :
  in_string st = true → string_start_line st = Some l →
  string_start_col st = Some c →
  report st
  = errors st ++ [unterminated_error l c] ++ (opening_error <$> stack st).
Proof.
  intros Hin Hl Hc. unfold report. rewrite Hin, Hl, Hc, foldl_append_map.
  rewrite <- app_assoc. reflexivity.
Qed.

Lemma report_out_string st :
  in_string st = false →
  report st = errors st ++ (opening_error <$> stack st).
Proof.
  intros Hin. unfold report. rewrite Hin, foldl_append_map. reflexivity.
Qed.

(** C2: at the end of the scan the diagnostics found so far are followed,
    in this order, by one Unterminated string literal diagnostic of
    length 1 at the recorded start of the string when string mode is
    still on, and then by one Unmatched opening diagnostic of length 1
    per stack entry, at the entry's position, in the order of the stack,
    which lists the entries from the earliest opened to the latest. *)
Theorem end_of_scan_order (text : str) :
  ∃ st, scan text = Ok st
    ∧ (in_string st = true →
       ∃ l c, string_start_line st = Some l ∧ string_start_col st = Some c
         ∧ lint text
           = Ok (errors st
                 ++ [ {| line := l; col := c; len := 1;
                         msg := of_string "Unterminated string literal" |} ]
                 ++ ((λ e : Opening,
                        {| line := e.1.2; col := e.2; len := 1;
                           msg := of_string "Unmatched opening '" ++ [e.1.1]
                                  ++ of_string "'" |}) <$> stack st)))
    ∧ (in_string st = false →
       lint text
       = Ok (errors st
             ++ ((λ e : Opening,
                    {| line := e.1.2; col := e.2; len := 1;
                       msg := of_string "Unmatched opening '" ++ [e.1.1]
                              ++ of_string "'" |}) <$> stack st)))
    ∧ StronglySorted opened_before (stack st).
Proof.
  eexists. split; [apply scan_run|]. rewrite lint_run.
  split; [|split].
  - intros Hin.
    destruct (string_vars_inv _ Hin) as (q & l & c & _ & _ & Hl & Hc).
    exists l, c. split; [exact Hl|split; [exact Hc|]].
    rewrite (report_in_string _ l c Hin Hl Hc). reflexivity.
  - intros Hin. rewrite (report_out_string _ Hin). reflexivity.
  - apply scan_stack_sorted.
Qed.

(** Three openers left open are reported in the order brace, square
    bracket, parenthesis. *)
Example lint_three_openers :
  lint (of_string "{[(")
  = Ok [ {| line := 1; col := 0; len := 1;
            msg := of_string "Unmatched opening '{'" |};
         {| line := 1; col := 1; len := 1;
            msg := of_string "Unmatched opening '['" |};
         {| line := 1; col := 2; len := 1;
            msg := of_string "Unmatched opening '('" |} ].
Proof. vm_compute. reflexivity. Qed.

(** ** Open strings *)

Lemma step_absorbed st q c :
  in_string st = true → string_char st = Some q → unescaped q c = false →
  step st c = st.
Proof.
  intros Hin Hq Hc. unfold step. rewrite Hin. simpl.
  destruct (is_quote (cell_ch c)); simpl; [|reflexivity].
  destruct (bool_decide (cell_prev c = Some c_backslash)) eqn:Hesc; simpl;
    [reflexivity|].
  rewrite bool_decide_false; [reflexivity|].
  rewrite Hq. intros [= E]. unfold unescaped in Hc.
  rewrite Hesc, bool_decide_true in Hc by exact E. discriminate.
Qed.

Lemma run_absorbed cs st q :
  in_string st = true → string_char st = Some q →
  Forall (λ c, unescaped q c = false) cs →
  run cs st = st.
Proof.
  intros Hin Hq Hcs. induction Hcs as [|c cs Hc _ IH]; [reflexivity|].
  simpl. rewrite (step_absorbed st q c Hin Hq Hc). exact IH.
Qed.

Lemma step_opens_string st q c :
  in_string st = false → is_quote q = true → unescaped q c = true →
  step st c = enter_string q (cell_line c) (cell_col c) st.
Proof.
  intros Hin Hquote Hc. unfold unescaped in Hc.
  apply andb_true_iff in Hc as [Hq Hesc].
  apply bool_decide_eq_true in Hq.
  unfold step. rewrite Hq, Hquote, Hesc, Hin. reflexivity.
Qed.

(** C5: string mode is kept from one line to the next. Once an unescaped
    quote has opened a string, the iterations that follow, on the same
    line and on later lines, up to an unescaped quote of the same kind or
    the end of the document, leave the scan state exactly as the opening
    quote left it: no push, no pop and no diagnostic. *)
Theorem open_string_absorbs (text : str) (cs0 mid tail : list Cell)
    (c_open : Cell) (q : char) :
  doc_cells 1 (splitlines text) = cs0 ++ c_open :: mid ++ tail →
  in_string (run cs0 init_state) = false →
  is_quote q = true →
  unescaped q c_open = true →
  Forall (λ c, unescaped q c = false) mid →
  let st_open := run (cs0 ++ [c_open]) init_state in
  in_string st_open = true
  ∧ string_char st_open = Some q
  ∧ stack st_open = stack (run cs0 init_state)
  ∧ errors st_open = errors (run cs0 init_state)
  ∧ run (cs0 ++ c_open :: mid) init_state = st_open
  ∧ scan text = Ok (run tail st_open).
Proof.
  intros Hdoc Hin Hquote Hopen Hmid st_open.
  assert (Hst : st_open
                = enter_string q (cell_line c_open) (cell_col c_open)
                    (run cs0 init_state)).
  { unfold st_open. rewrite run_app. simpl.
    apply step_opens_string; assumption. }
  assert (Hrun : run (cs0 ++ c_open :: mid) init_state = st_open).
  { replace (cs0 ++ c_open :: mid) with ((cs0 ++ [c_open]) ++ mid)
      by (rewrite <- app_assoc; reflexivity).
    rewrite run_app. fold st_open.
    apply (run_absorbed mid st_open q); [rewrite Hst..|exact Hmid];
      reflexivity. }
  split; [rewrite Hst; reflexivity|].
  split; [rewrite Hst; reflexivity|].
  split; [rewrite Hst; reflexivity|].
  split; [rewrite Hst; reflexivity|].
  split; [exact Hrun|].
  rewrite scan_run, Hdoc.
  replace (cs0 ++ c_open :: mid ++ tail) with ((cs0 ++ c_open :: mid) ++ tail)
    by (rewrite <- app_assoc; reflexivity).
  rewrite run_app, Hrun. reflexivity.
Qed.

(** A string opened on line 1 and never closed: the brackets on lines 1
    to 3 are not scanned as brackets. *)
Lemma open_string_absorbs_witness :
  let text := of_string "('[" ++ [10%N] ++ of_string ")}" ++ [10%N]
              ++ of_string "]" in
  let c_paren := mkCell None c_lparen 1 0 in
  let c_open := mkCell (Some c_lparen) c_squote 1 1 in
  let st_open := run [c_paren; c_open] init_state in
  stack st_open = [(c_lparen, 1, 0)]
  ∧ errors st_open = []
  ∧ scan text = Ok st_open.
Proof.
  intros text c_paren c_open st_open.
  destruct (open_string_absorbs text [c_paren]
              [mkCell (Some c_squote) c_lbracket 1 2;
               mkCell None c_rparen 2 0;
               mkCell (Some c_rparen) c_rbrace 2 1;
               mkCell None c_rbracket 3 0]
              [] c_open c_squote)
    as (_ & _ & Hs & He & _ & Hscan).
  - reflexivity.
  - reflexivity.
  - reflexivity.
  - reflexivity.
  - repeat constructor.
  - split; [exact Hs|split; [exact He|exact Hscan]].
Defined.

(** ** What becomes of a stack entry *)

(** An entry of the stack either stays on it until the end of the run or
    is the top at some iteration that reads, outside a string, the closing
    bracket paired with it, and is popped there. *)
Lemma entry_fate (o : Opening) cs st :
  o ∈ stack st →
  o ∈ stack (run cs st)
  ∨ ∃ mid c rest s,
      cs = mid ++ c :: rest
      ∧ in_string (run mid st) = false
      ∧ pairs !! cell_ch c = Some o.1.1
      ∧ stack (run mid st) = s ++ [o]
      ∧ stack (run (mid ++ [c]) st) = s.
Proof.
  revert st. induction cs as [|c cs IH]; intros st Ho; [left; exact Ho|].
  assert (Hnext : o ∈ stack (step st c) →
                  o ∈ stack (run (c :: cs) st)
                  ∨ ∃ mid c' rest s,
                      c :: cs = mid ++ c' :: rest
                      ∧ in_string (run mid st) = false
                      ∧ pairs !! cell_ch c' = Some o.1.1
                      ∧ stack (run mid st) = s ++ [o]
                      ∧ stack (run (mid ++ [c']) st) = s).
  { intros Ho'. destruct (IH _ Ho') as [H|(mid & c' & rest & s & -> & H)].
    - left. exact H.
    - right. exists (c :: mid), c', rest, s. split; [reflexivity|exact H]. }
  destruct (step_stack_cases st c)
    as [E|[(_ & _ & E)|(Hin & s & top & Hs & E & Hp)]].
  - apply Hnext. rewrite E. exact Ho.
  - apply Hnext. rewrite E. apply elem_of_app. left. exact Ho.
  - rewrite Hs in Ho. apply elem_of_app in Ho as [Ho|Ho].
    + apply Hnext. rewrite E. exact Ho.
    + apply list_elem_of_singleton in Ho as ->.
      right. exists [], c, cs, s. simpl. auto.
Qed.

Lemma opening_reported st o :
  o ∈ stack st → opening_error o ∈ report st.
Proof.
  intros Ho. unfold report. rewrite foldl_append_map.
  apply elem_of_app. right. apply list_elem_of_fmap_2, Ho.
Qed.

Lemma report_nil_stack st : report st = [] → stack st = [].
Proof.
  unfold report. rewrite foldl_append_map. intros H.
  apply app_eq_nil in H as [_ H]. apply fmap_nil_inv in H. exact H.
Qed.

(** C6: every entry pushed during a scan is either popped, as the top of
    the stack, by a later iteration that reads the closing bracket paired
    with the entry's opener, or it is still on the stack when the scan
    ends and is then reported as Unmatched opening; and a scan that
    reports nothing ends with an empty stack. *)
Theorem pushed_openers_accounted (text : str) :
  ∃ st_end ds,
    scan text = Ok st_end ∧ lint text = Ok ds
    ∧ (∀ cs1 c cs2 o,
         doc_cells 1 (splitlines text) = cs1 ++ c :: cs2 →
         stack (run (cs1 ++ [c]) init_state)
         = stack (run cs1 init_state) ++ [o] →
         (∃ mid c' rest s,
            cs2 = mid ++ c' :: rest
            ∧ is_closer (cell_ch c') = true
            ∧ pairs !! cell_ch c' = Some o.1.1
            ∧ stack (run (cs1 ++ c :: mid) init_state) = s ++ [o]
            ∧ stack (run (cs1 ++ c :: mid ++ [c']) init_state) = s)
         ∨ (o ∈ stack st_end
            ∧ {| line := o.1.2; col := o.2; len := 1;
                 msg := of_string "Unmatched opening '" ++ [o.1.1]
                        ++ of_string "'" |} ∈ ds))
    ∧ (ds = [] → stack st_end = []).
Proof.
  eexists _, _. split; [apply scan_run|]. split; [apply lint_run|].
  split; [|apply report_nil_stack].
  intros cs1 c cs2 o Hdoc Hpush. rewrite Hdoc.
  replace (cs1 ++ c :: cs2) with ((cs1 ++ [c]) ++ cs2)
    by (rewrite <- app_assoc; reflexivity).
  rewrite run_app.
  destruct (entry_fate o cs2 (run (cs1 ++ [c]) init_state))
    as [H|(mid & c' & rest & s & -> & Hin & Hp & Hs & Hs')].
  - rewrite Hpush. apply elem_of_app. right. left.
  - right. split; [exact H|]. apply (opening_reported _ o H).
  - left. exists mid, c', rest, s. split; [reflexivity|].
    rewrite <- !run_app, <- !app_assoc in Hs, Hs'. simpl in Hs, Hs'.
    split; [|auto].
    unfold is_closer.
    destruct (decide (cell_ch c' = c_rbrace)) as [->|N1]; [reflexivity|].
    destruct (decide (cell_ch c' = c_rparen)) as [->|N2]; [reflexivity|].
    destruct (decide (cell_ch c' = c_rbracket)) as [->|N3]; [reflexivity|].
    exfalso. unfold pairs in Hp.
    rewrite !lookup_insert_ne in Hp by congruence.
    rewrite lookup_singleton_ne in Hp by congruence. discriminate.
Qed.

(** ** Totality and the number of iterations *)

Lemma line_cells_length i j prev rest :
  length (line_cells i j prev rest) = length rest.
Proof.
  revert j prev. induction rest as [|ch rest IH]; intros j prev; simpl;
    [reflexivity|]. rewrite IH. reflexivity.
Qed.

Lemma doc_cells_length i lines :
  length (doc_cells i lines) = sum_list (length <$> lines).
Proof.
  revert i. induction lines as [|l lines IH]; intros i; simpl; [reflexivity|].
  rewrite length_app, line_cells_length, IH. reflexivity.
Qed.

(** The lines hold no more characters than the text, and there are no
    more lines than characters. *)
Lemma splitlines_go_bounds after_cr cur s :
  sum_list (length <$> splitlines_go after_cr cur s) ≤ length cur + length s
  ∧ length (splitlines_go after_cr cur s)
    ≤ length s + (match cur with [] => 0 | _ => 1 end).
Proof.
  revert after_cr cur. induction s as [|c s IH]; intros after_cr cur; simpl.
  - destruct cur; simpl; [lia|]. rewrite length_reverse. simpl. lia.
  - destruct (after_cr && (c =? 10)%N).
    { destruct (IH false cur). lia. }
    destruct (is_linebreak c).
    + destruct (IH (c =? 13)%N []) as [H1 H2].
      rewrite fmap_cons, length_reverse. unfold fmap in *. simpl in *.
      destruct cur; simpl; lia.
    + destruct (IH false (c :: cur)) as [H1 H2]. simpl in *.
      destruct cur; lia.
Qed.

Lemma splitlines_bounds text :
  length (doc_cells 1 (splitlines text)) ≤ length text
  ∧ length (splitlines text) ≤ length text.
Proof.
  rewrite doc_cells_length. unfold splitlines.
  destruct (splitlines_go_bounds false [] text). simpl in *. lia.
Qed.

Lemma run_stack_length cs st :
  length (stack (run cs st)) ≤ length (stack st) + length cs.
Proof.
  revert st. induction cs as [|c cs IH]; intros st; simpl; [lia|].
  specialize (IH (step st c)).
  destruct (step_stack_cases st c)
    as [E|[(_ & _ & E)|(_ & s & top & Hs & E & _)]];
    rewrite E in IH; [lia| |].
  - rewrite length_app in IH. simpl in IH. lia.
  - rewrite Hs, length_app. simpl. lia.
Qed.

(** C7: the lint scan returns a diagnostic sequence for every text and
    raises nothing; its loops run a number of iterations bounded by the
    length of the text (the outer loop once per line, the inner loop once
    per character of a line, the final loop once per stack entry); and
    the empty text gives the empty sequence. *)
Theorem lint_total (text : str) :
  (∃ st ds,
     scan text = Ok st ∧ lint text = Ok ds
     ∧ length (stack st) ≤ length text)
  ∧ length (splitlines text) ≤ length text
  ∧ length (doc_cells 1 (splitlines text)) ≤ length text
  ∧ lint [] = Ok [].
Proof.
  destruct (splitlines_bounds text) as [Hcells Hlines].
  split; [|split; [exact Hlines|split; [exact Hcells|reflexivity]]].
  eexists _, _. split; [apply scan_run|]. split; [apply lint_run|].
  etrans; [apply run_stack_length|]. simpl. exact Hcells.
Qed.

(** ** Unterminated strings *)

Lemma msg_closing_not_unterminated ch : msg_closing ch ≠ msg_unterminated.
Proof. intros H. cbv in H. discriminate. Qed.

Lemma msg_opening_not_unterminated ch : msg_opening ch ≠ msg_unterminated.
Proof. intros H. cbv in H. discriminate. Qed.

Lemma filter_none {A} (P : A → Prop) `{!∀ x, Decision (P x)} (l : list A) :
  Forall (λ x, ¬ P x) l → filter P l = [].
Proof.
  induction 1 as [|x l Hx _ IH]; [reflexivity|].
  rewrite filter_cons_False by exact Hx. exact IH.
Qed.

Lemma scan_errors_closing cs :
  Forall (λ d, msg d ≠ msg_unterminated) (errors (run cs init_state)).
Proof.
  destruct (run_origin (λ _, True) cs init_state) as (He & _).
  - apply Forall_forall. auto.
  - apply origin_init.
  - eapply Forall_impl; [exact He|]. simpl.
    intros d (c & _ & _ & ->). apply msg_closing_not_unterminated.
Qed.

Lemma opening_errors_not_unterminated (s : list Opening) :
  Forall (λ d, msg d ≠ msg_unterminated) (opening_error <$> s).
Proof.
  apply Forall_fmap, Forall_forall. intros o _.
  apply msg_opening_not_unterminated.
Qed.

(** C10: a scan reports Unterminated string literal at most once. It is
    reported only for a string still open when the text ends, at that
    string's recorded start; neither the iterations of the scan, in which
    all earlier strings were closed, nor the entries of the stack add such
    a diagnostic. *)
Theorem one_unterminated_string (text : str) :
  ∃ st ds,
    scan text = Ok st ∧ lint text = Ok ds
    ∧ length (filter (λ d, msg d = of_string "Unterminated string literal") ds)
      ≤ 1
    ∧ filter (λ d, msg d = of_string "Unterminated string literal") (errors st)
      = []
    ∧ (in_string st = false →
       filter (λ d, msg d = of_string "Unterminated string literal") ds = [])
    ∧ (in_string st = true →
       ∃ l c, string_start_line st = Some l ∧ string_start_col st = Some c
         ∧ filter (λ d, msg d = of_string "Unterminated string literal") ds
           = [ {| line := l; col := c; len := 1;
                  msg := of_string "Unterminated string literal" |} ]).
Proof.
  eexists _, _. split; [apply scan_run|]. split; [apply lint_run|].
  set (st := run (doc_cells 1 (splitlines text)) init_state).
  pose proof (filter_none _ _ (scan_errors_closing
                                 (doc_cells 1 (splitlines text)))) as He.
  pose proof (filter_none _ _ (opening_errors_not_unterminated (stack st)))
    as Ho.
  fold st in He. change msg_unterminated with
    (of_string "Unterminated string literal") in He, Ho.
  assert (Hout : in_string st = false →
                 filter (λ d, msg d = of_string "Unterminated string literal")
                   (report st) = []).
  { intros Hin. rewrite (report_out_string _ Hin), filter_app, He, Ho.
    reflexivity. }
  assert (Hopen : in_string st = true →
                  ∃ l c, string_start_line st = Some l
                    ∧ string_start_col st = Some c
                    ∧ filter (λ d, msg d
                                   = of_string "Unterminated string literal")
                        (report st)
                      = [unterminated_error l c]).
  { intros Hin.
    destruct (string_vars_inv _ Hin) as (q & l & c & _ & _ & Hl & Hc).
    exists l, c. split; [exact Hl|split; [exact Hc|]].
    rewrite (report_in_string _ l c Hin Hl Hc), !filter_app, He, Ho.
    rewrite filter_cons_True by reflexivity. reflexivity. }
  split; [|split; [exact He|split; [exact Hout|exact Hopen]]].
  destruct (in_string st) eqn:Hin.
  - destruct (Hopen eq_refl) as (l & c & _ & _ & ->). simpl. lia.
  - rewrite (Hout eq_refl). simpl. lia.
Qed.

(** Two closed strings and one left open: one diagnostic, at the start of
    the open one. *)
Example lint_closed_then_open :
  lint (of_string "'a' + 'b' + 'c")
  = Ok [ {| line := 1; col := 12; len := 1;
            msg := of_string "Unterminated string literal" |} ].
Proof. vm_compute. reflexivity. Qed.

(** ** Positions of the diagnostics *)

Lemma line_cells_lookup i (pre rest : str) prev c :
  c ∈ line_cells i (length pre) prev rest →
  cell_line c = i ∧ (pre ++ rest) !! cell_col c = Some (cell_ch c).
Proof.
  revert pre prev. induction rest as [|ch rest IH]; intros pre prev; simpl.
  - intros H. inv H.
  - rewrite elem_of_cons. intros [->|H]; simpl.
    + split; [reflexivity|]. apply list_lookup_middle. reflexivity.
    + replace (length pre + 1) with (length (pre ++ [ch])) in H
        by (rewrite length_app; reflexivity).
      apply IH in H. rewrite <- app_assoc in H. exact H.
Qed.

Lemma doc_cells_in_doc (pre lines : list str) c :
  c ∈ doc_cells (length pre + 1) lines → cell_in_doc (pre ++ lines) c.
Proof.
  revert pre. induction lines as [|l lines IH]; intros pre; simpl.
  - intros H. inv H.
  - rewrite elem_of_app. intros [H|H].
    + apply (line_cells_lookup _ [] l) in H as [Hi Hl].
      split; [lia|]. exists l. split; [|exact Hl].
      rewrite Hi. apply list_lookup_middle. lia.
    + replace (length pre + 1) with (length (pre ++ [l])) in H
        by (rewrite length_app; reflexivity).
      apply IH in H. rewrite <- app_assoc in H. exact H.
Qed.

Lemma scan_origin lines :
  origin (cell_in_doc lines) (run (doc_cells 1 lines) init_state).
Proof.
  apply run_origin; [|apply origin_init].
  apply Forall_forall. intros c Hc. apply (doc_cells_in_doc [] lines c Hc).
Qed.




(** The console shows the same column, counted from 0. *)
Example console_shows_column_zero :
  lint_script {| current_editor := Some (of_string "(");
                 error_console := [] |}
  = Ok (false,
        {| current_editor := Some (of_string "(");
           error_console :=
             of_string "<a href=" ++ [c_dquote] ++ of_string "pos:1:0"
             ++ [c_dquote] ++ of_string "><span style=" ++ [c_dquote]
             ++ of_string "color:#ff9b9b;" ++ [c_dquote]
             ++ of_string ">[Ln 1:Col 0] Unmatched opening '('</span></a>" |}).
Proof. vm_compute. reflexivity. Qed.

(** ** The call as a whole *)

Lemma lint_script_editor (text console : str) :
  ∃ ds, lint text = Ok ds
    ∧ lint_script {| current_editor := Some text; error_console := console |}
      = Ok (match ds with [] => true | _ => false end,
            {| current_editor := Some text;
               error_console :=
                 match ds with
                 | [] => html_no_issues
                 | _ => join (of_string "<br>") (html_entry <$> ds)
                 end |}).
Proof.
  exists (report (run (doc_cells 1 (splitlines text)) init_state)).
  split; [apply lint_run|]. unfold lint_script. simpl. rewrite lint_run.
  destruct (report _); reflexivity.
Qed.

Lemma reset_locals_init (frame : ScanState) : reset_locals frame = init_state.
Proof. destruct frame. reflexivity. Qed.

(** The call on a frame does to the window what [lint_script] does. *)
Lemma lint_script_from_window (frame : ScanState) (self : MainWindow) :
  (λ r : bool * MainWindow * ScanState, r.1) <$> lint_script_from frame self
  = lint_script self.
Proof.
  unfold lint_script_from, lint_script, lint, scan.
  destruct (current_editor self) as [text|]; [|reflexivity].
  rewrite reset_locals_init, for_lines_run. simpl.
  destruct (report _); reflexivity.
Qed.



(** A scan that ends inside a string with two brackets open leaves
    [in_string] set and a non-empty [stack] and [errors]; a scan of the
    empty text started on these variables still finds nothing. *)
Example lint_after_unfinished_scan :
  ∃ frame,
    lint_script_from init_state
      {| current_editor := Some (of_string "{[)'"); error_console := [] |}
    = Ok (false,
          setHtml
            (join (of_string "<br>")
               (html_entry <$>
                  [closing_error c_rparen 1 2; unterminated_error 1 3;
                   opening_error (c_lbrace, 1, 0);
                   opening_error (c_lbracket, 1, 1)]))
            {| current_editor := Some (of_string "{[)'");
               error_console := [] |},
          frame)
    ∧ in_string frame = true ∧ length (stack frame) = 2
    ∧ length (errors frame) = 4
    ∧ lint_script_from frame
        {| current_editor := Some []; error_console := [] |}
      = Ok (true, {| current_editor := Some [];
                     error_console := html_no_issues |},
            finish_locals init_state).
Proof. eexists. vm_compute. repeat split. Qed.

(** C9: the call returns one boolean. It is [True] exactly when there is
    no current editor or the scan of the editor's text found no
    diagnostic, and [False] exactly when the scan found at least one. *)
Theorem lint_script_flag (self : MainWindow) :
  ∃ (b : bool) (self' : MainWindow),
    lint_script self = Ok (b, self')
    ∧ (b = true ↔
       current_editor self = None
       ∨ ∃ text, current_editor self = Some text ∧ lint text = Ok [])
    ∧ (b = false ↔
       ∃ text d ds,
         current_editor self = Some text ∧ lint text = Ok (d :: ds)).
Proof.
  destruct self as [[text|] console].
  - destruct (lint_script_editor text console) as (ds & Hds & H).
    eexists _, _. split; [exact H|]. simpl. destruct ds as [|d ds]; split.
    + split; [intros _; right; eauto|reflexivity].
    + split; [discriminate|].
      intros (text' & d & ds & [= <-] & Hl). congruence.
    + split; [discriminate|].
      intros [[=]|(text' & [= <-] & Hl)]. congruence.
    + split; [intros _; eauto|reflexivity].
  - exists true. eexists. split; [reflexivity|]. simpl. split.
    + split; [auto|reflexivity].
    + split; [discriminate|]. intros (text & d & ds & [=] & _).
Qed.

(** ** Sample documents *)

Example lint_complete_pairs :
  lint (of_string "{}") = Ok [] ∧ lint (of_string "()") = Ok []
  ∧ lint (of_string "[]") = Ok [].
Proof. vm_compute. auto. Qed.

Example lint_open_call :
  lint (of_string "foo(bar")
  = Ok [ {| line := 1; col := 3; len := 1;
            msg := of_string "Unmatched opening '('" |} ].
Proof. vm_compute. reflexivity. Qed.

Example lint_two_strings :
  lint ([c_dquote] ++ of_string "a" ++ [c_dquote] ++ of_string " + "
        ++ [c_dquote] ++ of_string "b" ++ [c_dquote]) = Ok [].
Proof. vm_compute. reflexivity. Qed.

(** ** [str.find] *)

Lemma find_at_cases (sub l : str) (i : Z) :
  sub ≠ [] →
  (find_at sub l i = (-1)%Z ∧ ∀ k, ¬ sub `prefix_of` drop k l)
  ∨ ∃ k, find_at sub l i = (i + Z.of_nat k)%Z
         ∧ sub `prefix_of` drop k l
         ∧ ∀ k', k' < k → ¬ sub `prefix_of` drop k' l.
Proof.
  intros Hsub. revert i. induction l as [|x l IH]; intros i; simpl.
  - rewrite bool_decide_false.
    + left. split; [reflexivity|]. intros k. rewrite drop_nil.
      intros H. apply prefix_nil_inv in H. contradiction.
    + intros H. apply prefix_nil_inv in H. contradiction.
  - case_bool_decide as Hp.
    + right. exists 0. split; [lia|]. split; [exact Hp|]. lia.
    + destruct (IH (i + 1)%Z) as [[E Hno]|(k & E & Hk & Hmin)].
      * left. split; [exact E|]. intros [|k]; [exact Hp|apply Hno].
      * right. exists (S k). split; [lia|]. split; [exact Hk|].
        intros [|k'] Hlt; [exact Hp|]. apply Hmin. lia.
Qed.

Lemma find_cases (text sub : str) (start : Z) :
  sub ≠ [] → (0 ≤ start)%Z →
  (find text sub start = (-1)%Z
   ∧ ∀ k, (start ≤ Z.of_nat k)%Z → ¬ occurs_at sub text k)
  ∨ ∃ k, find text sub start = Z.of_nat k
         ∧ (start ≤ Z.of_nat k)%Z
         ∧ k + length sub ≤ length text
         ∧ occurs_at sub text k
         ∧ ∀ k', (start ≤ Z.of_nat k')%Z → k' < k → ¬ occurs_at sub text k'.
Proof.
  intros Hsub Hstart. unfold find, occurs_at.
  rewrite (proj2 (Z.ltb_ge start 0)) by lia.
  destruct (Z.ltb_spec (Z.of_nat (length text)) start) as [Hlt|Hle].
  { left. split; [reflexivity|]. intros k Hk. rewrite drop_ge by lia.
    intros H. apply prefix_nil_inv in H. contradiction. }
  destruct (find_at_cases sub (drop (Z.to_nat start) text) start Hsub)
    as [[E Hno]|(k & E & Hk & Hmin)].
  - left. split; [exact E|]. intros k Hk.
    replace k with (Z.to_nat start + (k - Z.to_nat start)) by lia.
    rewrite <- drop_drop. apply Hno.
  - right. exists (Z.to_nat start + k). rewrite drop_drop in Hk.
    split; [rewrite E; lia|]. split; [lia|]. split; [|split; [exact Hk|]].
    + apply prefix_length in Hk. rewrite length_drop in Hk.
      destruct sub; [contradiction|]. simpl in *. lia.
    + intros k' H1 H2.
      replace k' with (Z.to_nat start + (k' - Z.to_nat start)) by lia.
      rewrite <- drop_drop. apply Hmin. lia.
Qed.

Lemma comment_open_nonempty : comment_open ≠ [].
Proof. discriminate. Qed.

Lemma comment_close_nonempty : comment_close ≠ [].
Proof. discriminate. Qed.

(** ** The block-comment pass *)

Section comment_pass.
Variable text : str.

(** What one iteration finds: no closing marker from [start] on, and the
    loop ends with the range running to the end of the text; or the first
    closing marker at [k], and the loop goes on at the next opening
    marker after it, if any. *)
Lemma comment_body_cases (start st : Z) :
  (0 ≤ start ≤ Z.of_nat (length text))%Z →
  (comment_body text start st
   = ((start, Z.of_nat (length text) - start, comment_format), -1, 1)%Z
   ∧ ∀ k, (start ≤ Z.of_nat k)%Z → ¬ occurs_at comment_close text k)
  ∨ ∃ k next,
      comment_body text start st
      = ((start, Z.of_nat k - start + 2, comment_format)%Z, next, st)
      ∧ (start ≤ Z.of_nat k)%Z ∧ k + 2 ≤ length text
      ∧ occurs_at comment_close text k
      ∧ (∀ k', (start ≤ Z.of_nat k')%Z → k' < k →
               ¬ occurs_at comment_close text k')
      ∧ ((next = (-1)%Z
          ∧ ∀ j, k + 2 ≤ j → ¬ occurs_at comment_open text j)
         ∨ ∃ j, next = Z.of_nat j ∧ k + 2 ≤ j ∧ j + 2 ≤ length text
                ∧ occurs_at comment_open text j
                ∧ ∀ j', k + 2 ≤ j' → j' < j →
                        ¬ occurs_at comment_open text j').
Proof.
  intros Hstart. unfold comment_body.
  destruct (find_cases text comment_close start comment_close_nonempty)
    as [[E Hno]|(k & E & Hk & Hlen & Hocc & Hmin)]; [lia| |].
  - left. rewrite E. simpl. split; [|exact Hno].
    destruct (find_cases text comment_open
                (start + (Z.of_nat (length text) - start))
                comment_open_nonempty) as [[E' _]|(j & _ & Hj & Hjl & _)];
      [lia| |].
    + rewrite E'. reflexivity.
    + simpl in Hjl. lia.
  - right. rewrite E. simpl in Hlen.
    rewrite (proj2 (Z.eqb_neq (Z.of_nat k) (-1))) by lia.
    exists k. eexists. split; [reflexivity|].
    split; [exact Hk|]. split; [exact Hlen|]. split; [exact Hocc|].
    split; [exact Hmin|].
    destruct (find_cases text comment_open (start + (Z.of_nat k - start + 2))
                comment_open_nonempty) as [[E' Hno]|(j & E' & Hj & Hjl & Ho & Hm)];
      [lia| |].
    + left. split; [exact E'|]. intros j Hj. apply Hno. lia.
    + right. exists j. simpl in Hjl. split; [exact E'|].
      split; [lia|]. split; [exact Hjl|]. split; [exact Ho|].
      intros j' H1 H2. apply Hm; lia.
Qed.

Lemma comment_loop_step (fuel : nat) (start : Z) (calls : list SetFormat)
    (st : Z) :
  (0 ≤ start)%Z →
  comment_loop (S fuel) text start calls st
  = comment_loop fuel text (comment_body text start st).1.2
      (calls ++ [(comment_body text start st).1.1])
      (comment_body text start st).2.
Proof.
  intros H. cbn [comment_loop]. rewrite (proj2 (Z.leb_le 0 start)) by lia.
  destruct (comment_body text start st) as [[call next] st']. reflexivity.
Qed.

Lemma comment_loop_done (fuel : nat) (calls : list SetFormat) (st : Z) :
  comment_loop fuel text (-1) calls st = Some (calls, st).
Proof. destruct fuel; reflexivity. Qed.

(** The loop ends within [length text - start + 1] iterations, and what
    holds before it and is kept by every iteration holds when it ends. *)
Lemma comment_loop_inv (I : Z → list SetFormat → Z → Prop) :
  (∀ start calls st,
     (0 ≤ start ≤ Z.of_nat (length text))%Z → I start calls st →
     I (comment_body text start st).1.2
       (calls ++ [(comment_body text start st).1.1])
       (comment_body text start st).2) →
  ∀ fuel start calls st,
    (start = (-1)%Z
     ∨ ((0 ≤ start ≤ Z.of_nat (length text))%Z
        ∧ (Z.of_nat (length text) - start < Z.of_nat fuel)%Z)) →
    I start calls st →
    ∃ calls' st',
      comment_loop fuel text start calls st = Some (calls', st')
      ∧ I (-1)%Z calls' st'.
Proof.
  intros Hstep. induction fuel as [|fuel IH]; intros start calls st Hs HI.
  - destruct Hs as [->|Hs]; [|lia]. rewrite comment_loop_done. eauto.
  - destruct Hs as [->|[Hs Hf]]; [rewrite comment_loop_done; eauto|].
    rewrite comment_loop_step by lia.
    specialize (Hstep start calls st Hs HI).
    destruct (comment_body_cases start st Hs)
      as [[E _]|(k & next & E & Hk & Hlen & _ & _ & Hnext)];
      rewrite E in *; simpl in *.
    + apply IH; [left; reflexivity|exact Hstep].
    + destruct Hnext as [[-> _]|(j & -> & Hj & Hjl & _)].
      * apply IH; [left; reflexivity|exact Hstep].
      * apply IH; [right; lia|exact Hstep].
Qed.

Lemma highlightBlock_inv (I : Z → list SetFormat → Z → Prop)
    (rule_calls : list SetFormat) (prev : Z) :
  (∀ start calls st,
     (0 ≤ start ≤ Z.of_nat (length text))%Z → I start calls st →
     I (comment_body text start st).1.2
       (calls ++ [(comment_body text start st).1.1])
       (comment_body text start st).2) →
  I (if bool_decide (prev ≠ 1%Z) then find text comment_open 0 else 0%Z)
    rule_calls 0%Z →
  ∃ calls st,
    highlightBlock rule_calls prev text = Some (calls, st)
    ∧ I (-1)%Z calls st.
Proof.
  intros Hstep Hinit. unfold highlightBlock.
  apply (comment_loop_inv I Hstep); [|exact Hinit].
  case_bool_decide; [|right; lia].
  destruct (find_cases text comment_open 0 comment_open_nonempty)
    as [[E _]|(k & E & _ & Hlen & _)]; [lia|left; exact E|].
  right. rewrite E. lia.
Qed.

End comment_pass.

Lemma covered_closed (text : str) (start : Z) (k : nat) :
  (0 ≤ start ≤ Z.of_nat k)%Z →
  occurs_at comment_close text k →
  closed_comment text (start, Z.of_nat k - start + 2, comment_format)%Z.
Proof.
  intros Hs [rest Hk]. unfold closed_comment, covered. simpl.
  replace (Z.to_nat (Z.of_nat k - start + 2))
    with ((k - Z.to_nat start) + 2) by lia.
  rewrite <- take_take_drop, drop_drop.
  replace (Z.to_nat start + (k - Z.to_nat start)) with k by lia.
  rewrite Hk. exists (take (k - Z.to_nat start) (drop (Z.to_nat start) text)).
  reflexivity.
Qed.

Lemma covered_opened (text : str) (start n : Z) :
  (0 ≤ start)%Z → (2 ≤ n)%Z →
  occurs_at comment_open text (Z.to_nat start) →
  opened_comment text (start, n, comment_format).
Proof.
  intros Hs Hn [rest Hk]. unfold opened_comment, covered. simpl.
  rewrite Hk. rewrite take_app.
  exists (take (Z.to_nat n - length comment_open) rest).
  rewrite (take_ge comment_open) by (simpl; lia). reflexivity.
Qed.

(** X1: the block-comment pass ends for every line and previous state:
    its loop needs no more iterations than the line has characters, plus
    one. The calls it adds after those of the regular expressions all
    format comments, lie inside the line, come in increasing order
    without overlap, and the block state it sets is 0 or 1. *)
Theorem highlightBlock_ranges (rule_calls : list SetFormat) (prev : Z)
    (text : str) :
  ∃ comments st,
    highlightBlock rule_calls prev text = Some (rule_calls ++ comments, st)
    ∧ (st = 0 ∨ st = 1)%Z
    ∧ Forall (in_text text) comments
    ∧ StronglySorted range_before comments.
Proof.
  destruct (highlightBlock_inv text
    (λ start calls st,
       ∃ comments, calls = rule_calls ++ comments
         ∧ (st = 0 ∨ st = 1)%Z
         ∧ Forall (in_text text) comments
         ∧ StronglySorted range_before comments
         ∧ ((0 ≤ start)%Z →
            Forall (λ c, (c.1.1 + c.1.2 ≤ start)%Z) comments))
    rule_calls prev) as (calls & st & Hrun & comments & -> & Hst & Hin & Hsort & _).
  - intros start calls st Hs (comments & -> & Hst & Hin & Hsort & Hbefore).
    specialize (Hbefore (proj1 Hs)).
    destruct (comment_body_cases text start st Hs)
      as [[E _]|(k & next & E & Hk & Hlen & _ & _ & Hnext)];
      rewrite E; simpl.
    + eexists. split; [rewrite <- app_assoc; reflexivity|].
      split; [auto|]. split; [|split; [|lia]].
      * apply Forall_app. split; [exact Hin|]. repeat constructor; simpl; lia.
      * apply StronglySorted_app_2; [|exact Hsort|repeat constructor].
        intros c1 c2 H1 H2. apply list_elem_of_singleton in H2 as ->.
        rewrite Forall_forall in Hbefore. apply (Hbefore c1 H1).
    + eexists. split; [rewrite <- app_assoc; reflexivity|].
      split; [exact Hst|]. split; [|split].
      * apply Forall_app. split; [exact Hin|]. repeat constructor; simpl; lia.
      * apply StronglySorted_app_2; [|exact Hsort|repeat constructor].
        intros c1 c2 H1 H2. apply list_elem_of_singleton in H2 as ->.
        rewrite Forall_forall in Hbefore. apply (Hbefore c1 H1).
      * intros Hn. apply Forall_app. split.
        -- eapply Forall_impl; [exact Hbefore|]. simpl. intros c Hc.
           destruct Hnext as [[-> _]|(j & -> & Hj & _)]; lia.
        -- repeat constructor. simpl.
           destruct Hnext as [[-> _]|(j & -> & Hj & _)]; lia.
  - exists []. rewrite app_nil_r. split; [reflexivity|]. split; [auto|].
    split; [constructor|]. split; constructor.
  - eauto 10.
Qed.

(** X2: the block state tells whether a comment is left open. With state
    0 every comment range ends with the closing marker. With state 1 the
    last range runs to the end of the line, no closing marker occurs from
    its start on, and the ranges before it end with the closing marker. *)
Theorem highlightBlock_state (rule_calls : list SetFormat) (prev : Z)
    (text : str) :
  ∃ comments st,
    highlightBlock rule_calls prev text = Some (rule_calls ++ comments, st)
    ∧ ((st = 0%Z ∧ Forall (closed_comment text) comments)
       ∨ (st = 1%Z
          ∧ ∃ earlier s,
              comments
              = earlier ++ [(s, Z.of_nat (length text) - s, comment_format)%Z]
              ∧ Forall (closed_comment text) earlier
              ∧ ∀ k, (s ≤ Z.of_nat k)%Z → ¬ occurs_at comment_close text k)).
Proof.
  destruct (highlightBlock_inv text
    (λ start calls st,
       ∃ comments, calls = rule_calls ++ comments
         ∧ ((st = 0%Z ∧ Forall (closed_comment text) comments)
            ∨ (st = 1%Z ∧ start = (-1)%Z
               ∧ ∃ earlier s,
                   comments
                   = earlier
                     ++ [(s, Z.of_nat (length text) - s, comment_format)%Z]
                   ∧ Forall (closed_comment text) earlier
                   ∧ ∀ k, (s ≤ Z.of_nat k)%Z →
                          ¬ occurs_at comment_close text k)))
    rule_calls prev) as (calls & st & Hrun & comments & -> & H).
  - intros start calls st Hs (comments & -> & [[-> Hcl]|(_ & -> & _)]); [|lia].
    destruct (comment_body_cases text start 0 Hs)
      as [[E Hno]|(k & next & E & Hk & Hlen & Hocc & _ & _)];
      rewrite E; simpl.
    + eexists. split; [rewrite <- app_assoc; reflexivity|]. right.
      split; [reflexivity|]. split; [reflexivity|]. eauto.
    + eexists. split; [rewrite <- app_assoc; reflexivity|]. left.
      split; [reflexivity|]. apply Forall_app. split; [exact Hcl|].
      repeat constructor. apply covered_closed; [lia|exact Hocc].
  - exists []. rewrite app_nil_r. split; [reflexivity|]. left.
    split; [reflexivity|constructor].
  - exists comments, st. split; [exact Hrun|].
    destruct H as [H|(-> & _ & H)]; [left; exact H|right; auto].
Qed.

(** X3: no opening marker of the line is missed: the index of every
    occurrence of the opening marker lies in one of the comment ranges. *)
Theorem highlightBlock_covers_openers (rule_calls : list SetFormat) (prev : Z)
    (text : str) :
  ∃ comments st,
    highlightBlock rule_calls prev text = Some (rule_calls ++ comments, st)
    ∧ ∀ k, occurs_at comment_open text k → ∃ c, c ∈ comments ∧ in_range k c.
Proof.
  destruct (highlightBlock_inv text
    (λ start calls st,
       ∃ comments, calls = rule_calls ++ comments
         ∧ ∀ k, occurs_at comment_open text k →
                (0 ≤ start)%Z ∧ (start ≤ Z.of_nat k)%Z
                ∨ ∃ c, c ∈ comments ∧ in_range k c)
    rule_calls prev) as (calls & st & Hrun & comments & -> & H).
  - intros start calls st Hs (comments & -> & Hcov).
    eexists. split; [rewrite <- app_assoc; reflexivity|].
    intros k Hk.
    assert (Hnew : ∀ n, (Z.of_nat k < start + n)%Z → (start ≤ Z.of_nat k)%Z →
              ∃ c, c ∈ comments ++ [(start, n, comment_format)] ∧ in_range k c).
    { intros n H1 H2. exists (start, n, comment_format).
      split; [apply elem_of_app; right; left|]. split; simpl; lia. }
    destruct (Hcov k Hk) as [[_ Hge]|(c & Hc & Hr)].
    2:{ right. exists c. split; [apply elem_of_app; left; exact Hc|exact Hr]. }
    destruct (comment_body_cases text start st Hs)
      as [[E _]|(j & next & E & Hj & Hlen & _ & _ & Hnext)];
      rewrite E; simpl.
    + right. apply Hnew; [|exact Hge].
      destruct Hk as [rest Hk]. apply (f_equal length) in Hk.
      rewrite length_drop, length_app in Hk. simpl in Hk. lia.
    + destruct (decide (k < j + 2)) as [Hlt|Hge'].
      { right. apply Hnew; [lia|exact Hge]. }
      destruct Hnext as [[-> Hno]|(j' & -> & Hj' & _ & _ & Hmin)].
      * exfalso. apply (Hno k); [lia|exact Hk].
      * destruct (decide (k < j')) as [Hlt|Hge''].
        -- exfalso. apply (Hmin k); [lia|exact Hlt|exact Hk].
        -- left. lia.
  - exists []. rewrite app_nil_r. split; [reflexivity|]. intros k Hk. left.
    case_bool_decide; [|lia].
    destruct (find_cases text comment_open 0 comment_open_nonempty)
      as [[E Hno]|(j & E & _ & _ & _ & Hmin)]; [lia| |].
    + exfalso. apply (Hno k); [lia|exact Hk].
    + rewrite E. destruct (decide (k < j)) as [Hlt|Hge]; [|lia].
      exfalso. apply (Hmin k); [lia|exact Hlt|exact Hk].
  - exists comments, st. split; [exact Hrun|]. intros k Hk.
    destruct (H k Hk) as [[H0 _]|Hc]; [lia|exact Hc].
Qed.

(** X4: every comment range starts with the opening marker, except that
    a range at index 0 may be the rest of a comment left open by the
    previous line (previous block state 1). *)
Theorem highlightBlock_opened (rule_calls : list SetFormat) (prev : Z)
    (text : str) :
  ∃ comments st,
    highlightBlock rule_calls prev text = Some (rule_calls ++ comments, st)
    ∧ Forall (λ c, opened_comment text c ∨ (prev = 1%Z ∧ c.1.1 = 0%Z))
        comments.
Proof.
  destruct (highlightBlock_inv text
    (λ start calls st,
       ∃ comments, calls = rule_calls ++ comments
         ∧ Forall (λ c, opened_comment text c ∨ (prev = 1%Z ∧ c.1.1 = 0%Z))
             comments
         ∧ ((0 ≤ start)%Z →
            occurs_at comment_open text (Z.to_nat start)
            ∨ (prev = 1%Z ∧ start = 0%Z)))
    rule_calls prev) as (calls & st & Hrun & comments & -> & H & _).
  - intros start calls st Hs (comments & -> & Hall & Hstart).
    eexists. split; [rewrite <- app_assoc; reflexivity|].
    assert (Hlast : ∀ n, (occurs_at comment_open text (Z.to_nat start) →
                          (2 ≤ n)%Z) →
              Forall (λ c, opened_comment text c ∨ (prev = 1%Z ∧ c.1.1 = 0%Z))
                (comments ++ [(start, n, comment_format)])).
    { intros n Hn. apply Forall_app. split; [exact Hall|].
      apply Forall_singleton. destruct (Hstart (proj1 Hs)) as [Ho|[Hp H0]].
      - left. apply covered_opened; [lia|auto|exact Ho].
      - right. auto. }
    destruct (comment_body_cases text start st Hs)
      as [[E _]|(j & next & E & Hj & Hlen & _ & _ & Hnext)];
      rewrite E; simpl.
    + split; [|lia]. apply Hlast. intros [rest Ho].
      apply (f_equal length) in Ho. rewrite length_drop, length_app in Ho.
      simpl in Ho. lia.
    + split; [apply Hlast; lia|]. intros Hn.
      destruct Hnext as [[-> _]|(j' & -> & _ & _ & Ho & _)]; [lia|].
      left. rewrite Nat2Z.id. exact Ho.
  - exists []. rewrite app_nil_r. split; [reflexivity|]. split; [constructor|].
    case_bool_decide as Hp.
    + destruct (find_cases text comment_open 0 comment_open_nonempty)
        as [[E _]|(j & E & _ & _ & Ho & _)]; [lia|rewrite E; lia|].
      rewrite E, Nat2Z.id. auto.
    + intros _. right. split; [|reflexivity].
      destruct (decide (prev = 1%Z)); [assumption|contradiction].
  - eauto.
Qed.

Lemma comment_loop_extends (text : str) (fuel : nat) (start : Z)
    (calls : list SetFormat) (st : Z) :
  (start = (-1)%Z
   ∨ ((0 ≤ start ≤ Z.of_nat (length text))%Z
      ∧ (Z.of_nat (length text) - start < Z.of_nat fuel)%Z)) →
  ∃ more st', comment_loop fuel text start calls st
              = Some (calls ++ more, st').
Proof.
  intros Hs.
  destruct (comment_loop_inv text (λ _ calls' _, ∃ more, calls' = calls ++ more))
    with (fuel := fuel) (start := start) (calls := calls) (st := st)
    as (calls' & st' & Hrun & more & ->).
  - intros s c t _ (more & ->). eexists. rewrite <- app_assoc. reflexivity.
  - exact Hs.
  - exists []. rewrite app_nil_r. reflexivity.
  - eauto.
Qed.

(** X5: a line inside a comment that the previous line left open, and
    without a closing marker, is formatted as comment from its first to
    its last character, and leaves the comment open for the next line. *)
Theorem highlightBlock_stays_open (rule_calls : list SetFormat) (text : str) :
  (∀ k, ¬ occurs_at comment_close text k) →
  highlightBlock rule_calls 1 text
  = Some (rule_calls ++ [(0, Z.of_nat (length text), comment_format)%Z], 1%Z).
Proof.
  intros Hno. unfold highlightBlock.
  rewrite bool_decide_false by (intros H; apply H; reflexivity).
  rewrite comment_loop_step by lia.
  destruct (comment_body_cases text 0 0)
    as [[E _]|(k & next & _ & _ & _ & Hocc & _)]; [lia| |].
  - rewrite E. simpl. rewrite comment_loop_done, Z.sub_0_r. reflexivity.
  - exfalso. exact (Hno k Hocc).
Qed.

Lemma highlightBlock_stays_open_witness :
  highlightBlock [] 1 (of_string "still a comment")
  = Some ([(0, 15, comment_format)%Z], 1%Z).
Proof.
  apply (highlightBlock_stays_open [] (of_string "still a comment")).
  intros k [rest H].
  do 16 (destruct k as [|k]; [discriminate|]). discriminate.
Defined.

(** X6: in a line that continues an open comment, the first range runs
    from index 0 to the end of the first closing marker. *)
Theorem highlightBlock_closes_open_comment (rule_calls : list SetFormat)
    (text : str) (k : nat) :
  occurs_at comment_close text k →
  (∀ k', k' < k → ¬ occurs_at comment_close text k') →
  ∃ rest st,
    highlightBlock rule_calls 1 text
    = Some (rule_calls ++ (0, Z.of_nat k + 2, comment_format)%Z :: rest, st).
Proof.
  intros Hocc Hmin. unfold highlightBlock.
  rewrite bool_decide_false by (intros H; apply H; reflexivity).
  rewrite comment_loop_step by lia.
  destruct (comment_body_cases text 0 0)
    as [[E Hno]|(j & next & E & _ & Hlen & Hj & Hjmin & Hnext)]; [lia| |].
  { exfalso. apply (Hno k); [lia|exact Hocc]. }
  assert (j = k) as ->.
  { destruct (Nat.lt_trichotomy j k) as [H|[H|H]]; [|exact H|].
    - exfalso. exact (Hmin j H Hj).
    - exfalso. apply (Hjmin k); [lia|exact H|exact Hocc]. }
  rewrite E. simpl.
  destruct (comment_loop_extends text (length text) next
              (rule_calls ++ [(0, Z.of_nat k - 0 + 2, comment_format)%Z]) 0)
    as (more & st' & Hrun).
  - destruct Hnext as [[-> _]|(j' & -> & Hj' & Hl' & _)]; [left; reflexivity|].
    right. lia.
  - exists more, st'. etrans; [exact Hrun|].
    rewrite <- app_assoc, Z.sub_0_r. reflexivity.
Qed.

Lemma highlightBlock_closes_open_comment_witness :
  ∃ rest st,
    highlightBlock [] 1 (of_string "end */ x = 1;")
    = Some ((0, 6, comment_format)%Z :: rest, st).
Proof.
  apply (highlightBlock_closes_open_comment [] (of_string "end */ x = 1;") 4).
  - exists (of_string " x = 1;"). reflexivity.
  - intros k' Hk [rest H].
    do 4 (destruct k' as [|k']; [discriminate|]). lia.
Defined.

(** X7: a line without an opening marker that does not continue an open
    comment gets no comment format: the calls are those of the regular
    expressions alone, and the block state is 0. *)
Theorem highlightBlock_no_comment (rule_calls : list SetFormat) (prev : Z)
    (text : str) :
  prev ≠ 1%Z →
  (∀ k, ¬ occurs_at comment_open text k) →
  highlightBlock rule_calls prev text = Some (rule_calls, 0%Z).
Proof.
  intros Hprev Hno. unfold highlightBlock.
  rewrite bool_decide_true by exact Hprev.
  destruct (find_cases text comment_open 0 comment_open_nonempty)
    as [[E _]|(k & _ & _ & _ & Hocc & _)]; [lia| |].
  - rewrite E. apply comment_loop_done.
  - exfalso. exact (Hno k Hocc).
Qed.

Lemma highlightBlock_no_comment_witness :
  highlightBlock [(0, 4, keyword_format)%Z] (-1) (of_string "wait 1;")
  = Some ([(0, 4, keyword_format)%Z], 0%Z).
Proof.
  apply (highlightBlock_no_comment [(0, 4, keyword_format)%Z] (-1)
           (of_string "wait 1;")).
  - lia.
  - intros k [rest H].
    do 8 (destruct k as [|k]; [discriminate|]). discriminate.
Defined.

(** ** Recent files *)

Lemma last_ten_snoc {A} (l : list A) (f : A) :
  last_ten (l ++ [f]) = drop (length l - 9) l ++ [f].
Proof.
  unfold last_ten. rewrite length_app. simpl.
  replace (length l + 1 - 10) with (length l - 9) by lia.
  apply drop_app_le. lia.
Qed.

Lemma recent_value_stored (s : gmap string QVariant) (l : list PyItem) :
  recent_value (<["recentFiles" := QList l]> s) = QList l.
Proof.
  unfold recent_value. rewrite lookup_insert_eq. simpl.
  destruct l; reflexivity.
Qed.

Lemma file_actions_strings (l : list str) :
  file_actions (ItemStr <$> l)
  = Some (FileAction <$> filter (λ path, path ≠ []) l).
Proof.
  induction l as [|x l IH]; [reflexivity|].
  rewrite fmap_cons. simpl. rewrite IH.
  destruct (decide (x = [])) as [->|Hx].
  - rewrite bool_decide_true by reflexivity. simpl.
    rewrite filter_cons_False by (intros H; apply H; reflexivity).
    reflexivity.
  - rewrite bool_decide_false by exact Hx. simpl.
    rewrite filter_cons_True by exact Hx. reflexivity.
Qed.

(** A list item that is true as a condition and not a string makes the
    loop raise; without such an item the loop ends. *)
Lemma file_actions_None (l : list PyItem) :
  file_actions l = None ↔ ItemOther true ∈ l.
Proof.
  induction l as [|i l IH]; simpl.
  - split; [discriminate|]. intros H. inv H.
  - rewrite elem_of_cons. destruct i as [s|[]]; simpl.
    + destruct (negb (bool_decide (s = []))); simpl.
      * destruct (file_actions l) eqn:E; simpl.
        -- split; [discriminate|]. intros [[=]|H]. apply IH in H. discriminate.
        -- split; [intros _; right; apply IH; reflexivity|reflexivity].
      * rewrite IH. split; [auto|]. intros [[=]|H]. exact H.
    + split; [auto|reflexivity].
    + rewrite IH. split; [auto|]. intros [[=]|H]. exact H.
Qed.

Lemma update_recent_menu_stored (s : gmap string QVariant)
    (menu : list MenuItem) (l : list str) :
  update_recent_menu
    {| settings := <["recentFiles" := QList (ItemStr <$> l)]> s;
       recent_menu := menu |}
  = Some {| settings := <["recentFiles" := QList (ItemStr <$> l)]> s;
            recent_menu :=
              (FileAction <$> filter (λ path, path ≠ []) (reverse l))
              ++ match l with [] => [] | _ => [Separator; ClearRecentAction] end |}.
Proof.
  unfold update_recent_menu. simpl. rewrite recent_value_stored. simpl.
  rewrite <- fmap_reverse, file_actions_strings. simpl.
  destruct l; reflexivity.
Qed.

Lemma recent_files_stored (s : gmap string QVariant) (menu : list MenuItem)
    (l : list str) :
  recent_files {| settings := <["recentFiles" := QList (ItemStr <$> l)]> s;
                  recent_menu := menu |} = Some l.
Proof.
  unfold recent_files. simpl. rewrite lookup_insert_eq.
  induction l as [|x l IH]; [reflexivity|].
  rewrite fmap_cons. simpl. simpl in IH. rewrite IH. reflexivity.
Qed.

Lemma strings_of_items (l : list PyItem) :
  Forall (λ i, is_Some (item_string i)) l →
  l = ItemStr <$> omap item_string l.
Proof.
  induction 1 as [|i l [s Hs] _ IH]; [reflexivity|].
  destruct i as [s'|b]; [|discriminate]. simpl. f_equal. exact IH.
Qed.

Lemma item_strings_fmap (l : list str) :
  omap item_string (ItemStr <$> l) = l.
Proof.
  induction l as [|x l IH]; [reflexivity|]. simpl. f_equal. exact IH.
Qed.

Lemma string_items_known (st : RecentState) :
  string_items st → recent_items st = ItemStr <$> known_recent st.
Proof. apply strings_of_items. Qed.

Lemma filter_item_strings (f : str) (l : list str) :
  filter (λ r, r ≠ ItemStr f) (ItemStr <$> l)
  = ItemStr <$> filter (λ r, r ≠ f) l.
Proof.
  induction l as [|x l IH]; [reflexivity|].
  rewrite fmap_cons. destruct (decide (x = f)) as [->|Hx].
  - rewrite !filter_cons_False by (intros H; apply H; reflexivity).
    exact IH.
  - rewrite !filter_cons_True by congruence.
    rewrite fmap_cons, IH. reflexivity.
Qed.

Lemma add_recent_file_eq (f : str) (st : RecentState) :
  f ≠ [] → string_items st →
  let kept := drop (length (filter (λ r, r ≠ f) (known_recent st)) - 9)
                (filter (λ r, r ≠ f) (known_recent st)) in
  add_recent_file f st
  = Some {| settings :=
              <["recentFiles" := QList (ItemStr <$> (kept ++ [f]))]>
                (settings st);
            recent_menu :=
              FileAction f
              :: (FileAction <$> filter (λ path, path ≠ []) (reverse kept))
              ++ [Separator; ClearRecentAction] |}.
Proof.
  intros Hf Hstr kept. unfold add_recent_file.
  rewrite bool_decide_false by exact Hf.
  assert (Hrecent : match iter_items (recent_value (settings st)) with
                    | Some l => filter (λ r, r ≠ ItemStr f) l
                    | None => []
                    end
                    = ItemStr <$> filter (λ r, r ≠ f) (known_recent st)).
  { rewrite <- filter_item_strings, <- (string_items_known st Hstr).
    unfold recent_items.
    destruct (iter_items (recent_value (settings st))); reflexivity. }
  rewrite Hrecent, last_ten_snoc, length_fmap, <- fmap_drop. fold kept.
  change [ItemStr f] with (ItemStr <$> [f]). rewrite <- fmap_app.
  rewrite update_recent_menu_stored, reverse_snoc.
  rewrite filter_cons_True by exact Hf. simpl.
  destruct (kept ++ [f]) eqn:E; [|reflexivity].
  apply app_eq_nil in E as [_ E]. discriminate.
Qed.

(** X8: when every item of the stored value is a string (the value being
    [None], a string, a list or other iterable of strings, or a value
    that is not iterable), adding a non-empty file name does not raise.
    The stored list then ends with the file, holds it exactly once, has
    at most 10 entries, is a sublist of the files known before followed
    by the file, has no duplicates if the former list had none, and
    every other setting is unchanged. When the stored list has at most 9
    items and one of them is true as a condition and not a string, the
    call raises. *)
Theorem add_recent_file_list (f : str) (st : RecentState) :
  f ≠ [] →
  (string_items st →
   ∃ st' l,
     add_recent_file f st = Some st'
     ∧ settings st' !! "recentFiles" = Some (QList (ItemStr <$> l))
     ∧ recent_files st' = Some l
     ∧ last l = Some f
     ∧ length (filter (λ r, r = f) l) = 1
     ∧ length l ≤ 10
     ∧ l `sublist_of` known_recent st ++ [f]
     ∧ (NoDup (known_recent st) → NoDup l)
     ∧ ∀ key, key ≠ "recentFiles" → settings st' !! key = settings st !! key)
  ∧ (∀ items, settings st !! "recentFiles" = Some (QList items) →
       length items ≤ 9 → ItemOther true ∈ items →
       add_recent_file f st = None).
Proof.
  intros Hf. split.
  - intros Hstr.
    pose proof (add_recent_file_eq f st Hf Hstr) as Hadd. simpl in Hadd.
    set (filtered := filter (λ r, r ≠ f) (known_recent st)) in *.
    set (kept := drop (length filtered - 9) filtered) in *.
    assert (Hnot : ∀ x, x ∈ kept → x ≠ f).
    { intros x Hx. assert (x ∈ filtered) as Hx'.
      { exact (subseteq_drop _ _ x Hx). }
      apply list_elem_of_filter in Hx' as [Hne _]. exact Hne. }
    eexists _, (kept ++ [f]). split; [exact Hadd|].
    split; [simpl; apply lookup_insert_eq|].
    split; [apply recent_files_stored|].
    split; [apply last_snoc|]. split; [|split; [|split; [|split]]].
    + rewrite filter_app, filter_cons_True by reflexivity.
      rewrite (filter_none (λ r, r = f) kept).
      * reflexivity.
      * apply Forall_forall. exact Hnot.
    + rewrite length_app. unfold kept. rewrite length_drop. simpl. lia.
    + apply sublist_app; [|reflexivity].
      etrans; [apply sublist_drop|]. apply sublist_filter.
    + intros Hnd. apply NoDup_app. split; [|split].
      * apply (sublist_NoDup kept filtered); [|apply sublist_drop].
        apply NoDup_filter, Hnd.
      * intros x Hx Hin. apply list_elem_of_singleton in Hin.
        exact (Hnot x Hx Hin).
      * apply NoDup_singleton.
    + intros key Hkey. simpl. apply lookup_insert_ne. congruence.
  - intros items Hstored Hlen Hbad. unfold add_recent_file.
    rewrite bool_decide_false by exact Hf.
    assert (Hvalue : iter_items (recent_value (settings st)) = Some items).
    { unfold recent_value. rewrite Hstored. simpl.
      destruct items as [|i items]; [inv Hbad|]. reflexivity. }
    rewrite Hvalue, last_ten_snoc.
    assert (Hshort : length (filter (λ r, r ≠ ItemStr f) items) - 9 = 0).
    { pose proof (length_filter (λ r, r ≠ ItemStr f) items). lia. }
    rewrite Hshort. simpl.
    unfold update_recent_menu. simpl. rewrite recent_value_stored. simpl.
    rewrite (proj2 (file_actions_None _)); [reflexivity|].
    apply elem_of_reverse, elem_of_app. left.
    apply list_elem_of_filter. split; [discriminate|exact Hbad].
Qed.

Lemma add_recent_file_list_witness :
  ∃ st',
    add_recent_file (of_string "b.gsc")
      {| settings := {[ "recentFiles" := QList [ItemStr (of_string "b.gsc");
                                                ItemStr (of_string "a.gsc")] ]};
         recent_menu := [] |} = Some st'
    ∧ recent_files st' = Some [of_string "a.gsc"; of_string "b.gsc"].
Proof.
  destruct (add_recent_file_list (of_string "b.gsc")
              {| settings := {[ "recentFiles" := QList [ItemStr (of_string "b.gsc");
                                                        ItemStr (of_string "a.gsc")] ]};
                 recent_menu := [] |}) as [Hok _].
  - discriminate.
  - destruct Hok as (st' & l & Hadd & _).
    + repeat constructor; eexists; reflexivity.
    + exists st'. split; [exact Hadd|].
      vm_compute in Hadd. inv Hadd. reflexivity.
Defined.

Lemma filter_all {A} (P : A → Prop) `{!∀ x, Decision (P x)} (l : list A) :
  Forall P l → filter P l = l.
Proof.
  induction 1 as [|x l Hx _ IH]; [reflexivity|].
  rewrite filter_cons_True by exact Hx. rewrite IH. reflexivity.
Qed.

Lemma length_omap_le {A B} (g : A → option B) (l : list A) :
  length (omap g l) ≤ length l.
Proof.
  induction l as [|x l IH]; simpl; [lia|].
  unfold omap in IH. destruct (g x); simpl; lia.
Qed.

(** When the loop over the paths ends, it has added one action per item
    that is a non-empty string, in the order of the items. *)
Lemma file_actions_Some (l : list PyItem) (actions : list MenuItem) :
  file_actions l = Some actions →
  actions = FileAction <$> filter (λ path, path ≠ []) (omap item_string l).
Proof.
  revert actions. induction l as [|i l IH]; intros actions; simpl.
  - intros [= <-]. reflexivity.
  - destruct i as [s|[]]; simpl.
    + destruct (decide (s = [])) as [->|Hs].
      * rewrite bool_decide_true by reflexivity. simpl.
        rewrite filter_cons_False by (intros H; apply H; reflexivity).
        apply IH.
      * rewrite bool_decide_false by exact Hs. simpl.
        rewrite filter_cons_True by exact Hs.
        destruct (file_actions l) as [acts|]; simpl; [|discriminate].
        intros [= <-]. rewrite (IH acts eq_refl). reflexivity.
    + discriminate.
    + apply IH.
Qed.

Lemma update_recent_menu_list (s : gmap string QVariant)
    (menu : list MenuItem) (l : list PyItem) (i : PyItem) :
  update_recent_menu
    {| settings := <["recentFiles" := QList (l ++ [i])]> s;
       recent_menu := menu |}
  = actions ← file_actions (i :: reverse l);
    Some {| settings := <["recentFiles" := QList (l ++ [i])]> s;
            recent_menu := actions ++ [Separator; ClearRecentAction] |}.
Proof.
  unfold update_recent_menu. simpl. rewrite recent_value_stored. simpl.
  rewrite reverse_snoc.
  rewrite bool_decide_false; [reflexivity|].
  intros E. apply app_eq_nil in E as [_ E]. discriminate.
Qed.

(** [add_recent_file] for any stored value: the list that is stored and
    the menu update that follows. *)
Lemma add_recent_file_items (f : str) (st : RecentState) :
  f ≠ [] →
  let kept := drop (length (filter (λ r, r ≠ ItemStr f) (recent_items st)) - 9)
                (filter (λ r, r ≠ ItemStr f) (recent_items st)) in
  add_recent_file f st
  = older ← file_actions (reverse kept);
    Some {| settings := <["recentFiles" := QList (kept ++ [ItemStr f])]>
                          (settings st);
            recent_menu :=
              FileAction f :: older ++ [Separator; ClearRecentAction] |}.
Proof.
  intros Hf kept. unfold add_recent_file.
  rewrite bool_decide_false by exact Hf.
  assert (Hrecent : match iter_items (recent_value (settings st)) with
                    | Some l => filter (λ r, r ≠ ItemStr f) l
                    | None => []
                    end = filter (λ r, r ≠ ItemStr f) (recent_items st)).
  { unfold recent_items.
    destruct (iter_items (recent_value (settings st))); reflexivity. }
  rewrite Hrecent, last_ten_snoc. fold kept.
  rewrite update_recent_menu_list. simpl.
  rewrite bool_decide_false by exact Hf. simpl.
  destruct (file_actions (reverse kept)); reflexivity.
Qed.

Lemma add_recent_file_succeeds (f : str) (st : RecentState) :
  f ≠ [] → string_items st → ∃ st', add_recent_file f st = Some st'.
Proof.
  intros Hf Hstr. rewrite (add_recent_file_eq f st Hf Hstr). eauto.
Qed.

(** X9: adding a non-empty file name does not raise when the items of
    the stored value are strings, and whenever it does not raise, the
    recent-files menu shows that file first, then at most 9 older files,
    none of them empty or equal to the file and all of them known before,
    then a separator and the Clear Recent action. *)
Theorem add_recent_file_menu (f : str) (st : RecentState) :
  f ≠ [] →
  (string_items st → ∃ st', add_recent_file f st = Some st')
  ∧ ∀ st', add_recent_file f st = Some st' →
      ∃ older,
        recent_menu st'
        = FileAction f :: (FileAction <$> older)
          ++ [Separator; ClearRecentAction]
        ∧ length older ≤ 9
        ∧ ∀ x, x ∈ older → x ≠ f ∧ x ≠ [] ∧ x ∈ known_recent st.
Proof.
  intros Hf. split; [apply add_recent_file_succeeds, Hf|].
  intros st'. rewrite (add_recent_file_items f st Hf). simpl.
  set (filtered := filter (λ r, r ≠ ItemStr f) (recent_items st)).
  set (kept := drop (length filtered - 9) filtered).
  destruct (file_actions (reverse kept)) as [acts|] eqn:Hacts; simpl;
    [|discriminate].
  intros [= <-]. apply file_actions_Some in Hacts as ->.
  eexists. split; [reflexivity|]. split.
  - etrans; [apply length_filter|]. etrans; [apply length_omap_le|].
    rewrite length_reverse. unfold kept. rewrite length_drop. lia.
  - intros x Hx. apply list_elem_of_filter in Hx as [Hne Hx].
    apply list_elem_of_omap in Hx as (i & Hi & Hs).
    destruct i as [s|b]; [|discriminate]. injection Hs as ->.
    rewrite elem_of_reverse in Hi. apply subseteq_drop in Hi.
    apply list_elem_of_filter in Hi as [Hnf Hi].
    split; [congruence|]. split; [exact Hne|].
    apply list_elem_of_omap. exists (ItemStr x). auto.
Qed.

Lemma add_recent_file_menu_witness :
  ∃ st',
    add_recent_file (of_string "c.gsc")
      {| settings := {[ "recentFiles" := QList [ItemStr (of_string "a.gsc");
                                                ItemStr [];
                                                ItemStr (of_string "b.gsc")] ]};
         recent_menu := [] |} = Some st'
    ∧ recent_menu st'
      = [FileAction (of_string "c.gsc"); FileAction (of_string "b.gsc");
         FileAction (of_string "a.gsc"); Separator; ClearRecentAction].
Proof.
  destruct (add_recent_file_menu (of_string "c.gsc")
              {| settings := {[ "recentFiles" := QList [ItemStr (of_string "a.gsc");
                                                        ItemStr [];
                                                        ItemStr (of_string "b.gsc")] ]};
                 recent_menu := [] |}) as [Hok _].
  - discriminate.
  - destruct Hok as (st' & Hadd).
    + repeat constructor; eexists; reflexivity.
    + exists st'. split; [exact Hadd|].
      vm_compute in Hadd. inv Hadd. reflexivity.
Defined.

(** X10: adding the same file name again changes nothing: the first call
    does not raise when the items of the stored value are strings, and
    whenever it does not raise, a second call leaves the settings and the
    menu as the first call left them. *)
Theorem add_recent_file_twice (f : str) (st : RecentState) :
  f ≠ [] →
  (string_items st → ∃ st', add_recent_file f st = Some st')
  ∧ ∀ st', add_recent_file f st = Some st' →
           add_recent_file f st' = Some st'.
Proof.
  intros Hf. split; [apply add_recent_file_succeeds, Hf|].
  intros st' Hadd. pose proof Hadd as Hfirst.
  rewrite (add_recent_file_items f st Hf) in Hfirst. simpl in Hfirst.
  set (filtered := filter (λ r, r ≠ ItemStr f) (recent_items st)) in *.
  set (kept := drop (length filtered - 9) filtered) in *.
  destruct (file_actions (reverse kept)) as [acts|] eqn:Hacts; simpl in Hfirst;
    [|discriminate].
  injection Hfirst as <-.
  rewrite (add_recent_file_items f _ Hf). simpl.
  assert (Hitems : ∀ menu,
            recent_items
              {| settings := <["recentFiles" := QList (kept ++ [ItemStr f])]>
                               (settings st);
                 recent_menu := menu |} = kept ++ [ItemStr f]).
  { intros menu. unfold recent_items. simpl.
    rewrite recent_value_stored. reflexivity. }
  rewrite !Hitems.
  assert (Hfilter : filter (λ r, r ≠ ItemStr f) (kept ++ [ItemStr f]) = kept).
  { rewrite filter_app, filter_cons_False, filter_nil, app_nil_r
      by (intros H; apply H; reflexivity).
    apply filter_all, Forall_forall. intros x Hx.
    apply subseteq_drop in Hx. apply list_elem_of_filter in Hx as [Hx _].
    exact Hx. }
  rewrite Hfilter.
  assert (Hlen : length kept - 9 = 0).
  { unfold kept. rewrite length_drop. lia. }
  rewrite Hlen, !drop_0, Hacts, insert_insert_eq. reflexivity.
Qed.

Lemma add_recent_file_twice_witness :
  ∃ st',
    add_recent_file (of_string "a.gsc") {| settings := ∅; recent_menu := [] |}
    = Some st'
    ∧ add_recent_file (of_string "a.gsc") st' = Some st'.
Proof.
  destruct (add_recent_file_twice (of_string "a.gsc")
              {| settings := ∅; recent_menu := [] |}) as [Hok Hagain].
  - discriminate.
  - destruct Hok as (st' & Hadd); [constructor|].
    exists st'. split; [exact Hadd|exact (Hagain st' Hadd)].
Defined.

(** X11: clearing the recent files empties the menu, separator and Clear
    Recent action included, whatever was stored; a file added afterwards
    is the only file stored and shown. *)
Theorem clear_then_add (f : str) (st : RecentState) :
  f ≠ [] →
  ∃ st1 st2,
    clear_recent_files st = Some st1
    ∧ recent_files st1 = Some []
    ∧ recent_menu st1 = []
    ∧ add_recent_file f st1 = Some st2
    ∧ recent_files st2 = Some [f]
    ∧ recent_menu st2 = [FileAction f; Separator; ClearRecentAction].
Proof.
  intros Hf. unfold clear_recent_files.
  rewrite (update_recent_menu_stored _ _ []).
  eexists _, _. split; [reflexivity|].
  split; [apply (recent_files_stored _ _ [])|].
  split; [reflexivity|].
  rewrite (add_recent_file_eq f _ Hf).
  2:{ unfold string_items, recent_items. simpl.
      rewrite (recent_value_stored _ []). constructor. }
  unfold known_recent, recent_items. simpl.
  rewrite (recent_value_stored _ []). simpl.
  split; [reflexivity|].
  split; [apply (recent_files_stored _ _ [f])|].
  reflexivity.
Qed.

Lemma clear_then_add_witness :
  ∃ st1 st2,
    clear_recent_files
      {| settings := {[ "recentFiles" := QList [ItemOther true] ]};
         recent_menu := [] |}
    = Some st1
    ∧ add_recent_file (of_string "a.gsc") st1 = Some st2
    ∧ recent_files st2 = Some [of_string "a.gsc"].
Proof.
  destruct (clear_then_add (of_string "a.gsc")
              {| settings := {[ "recentFiles" := QList [ItemOther true] ]};
                 recent_menu := [] |})
    as (st1 & st2 & H1 & _ & _ & H2 & H3 & _).
  - discriminate.
  - exists st1, st2. auto.
Defined.

(** X27: filling the recent-files menu never changes the settings. For a
    stored list it raises exactly when some item of the list is true as
    a condition and not a string. *)
Theorem update_recent_menu_raises (st : RecentState) :
  (∀ st', update_recent_menu st = Some st' → settings st' = settings st)
  ∧ ∀ items, settings st !! "recentFiles" = Some (QList items) →
      (update_recent_menu st = None ↔ ItemOther true ∈ items).
Proof.
  split.
  - intros st'. unfold update_recent_menu.
    destruct (reversed_items _); simpl; [|discriminate].
    destruct (file_actions _); simpl; [|discriminate].
    intros [= <-]. reflexivity.
  - intros items Hstored. unfold update_recent_menu, recent_value.
    rewrite Hstored. simpl. destruct items as [|i items]; simpl.
    + split; [discriminate|]. intros H. inv H.
    + rewrite <- (elem_of_reverse _ (i :: items)), <- file_actions_None.
      destruct (file_actions (reverse (i :: items))); simpl;
        split; (discriminate || reflexivity || auto).
Qed.

(** ** The injection manager *)

Section injection.
Context `{Platform}.

Lemma script_paths_lookup (base : Path) (game : Z) :
  script_paths base !! game
  = if bool_decide (game = PLUTONIUM_T6) then
      Some {[ MULTIPLAYER := joinpath (joinpath (joinpath base (of_string "t6"))
                                         (of_string "scripts")) (of_string "mp");
              ZOMBIES := joinpath (joinpath (joinpath base (of_string "t6"))
                                     (of_string "scripts")) (of_string "zm");
              BOTH := joinpath (joinpath base (of_string "t6"))
                        (of_string "scripts") ]}
    else if bool_decide (game = PLUTONIUM_T5) then
      Some {[ MULTIPLAYER :=
                joinpath (joinpath (joinpath (joinpath base (of_string "t5"))
                                      (of_string "raw")) (of_string "scripts"))
                  (of_string "mp");
              ZOMBIES :=
                joinpath (joinpath (joinpath (joinpath base (of_string "t5"))
                                      (of_string "raw")) (of_string "scripts"))
                  (of_string "zm");
              BOTH := joinpath (joinpath (joinpath base (of_string "t5"))
                                  (of_string "raw")) (of_string "scripts") ]}
    else if bool_decide (game = PLUTONIUM_T4) then
      Some {[ MULTIPLAYER := joinpath (joinpath (joinpath base (of_string "t4"))
                                         (of_string "scripts")) (of_string "mp");
              ZOMBIES := joinpath (joinpath (joinpath base (of_string "t4"))
                                     (of_string "scripts")) (of_string "zm");
              BOTH := joinpath (joinpath base (of_string "t4"))
                        (of_string "scripts") ]}
    else if bool_decide (game = PLUTONIUM_IW5) then
      Some {[ MULTIPLAYER := joinpath (joinpath (joinpath base (of_string "iw5"))
                                         (of_string "scripts")) (of_string "mp");
              ZOMBIES := joinpath (joinpath (joinpath base (of_string "iw5"))
                                     (of_string "scripts")) (of_string "zm");
              BOTH := joinpath (joinpath base (of_string "iw5"))
                        (of_string "scripts") ]}
    else None.
Proof.
  unfold script_paths.
  case_bool_decide as H0; [rewrite H0; apply lookup_insert_eq|].
  rewrite lookup_insert_ne by congruence.
  case_bool_decide as H1; [rewrite H1; apply lookup_insert_eq|].
  rewrite lookup_insert_ne by congruence.
  case_bool_decide as H2; [rewrite H2; apply lookup_insert_eq|].
  rewrite lookup_insert_ne by congruence.
  case_bool_decide as H3; [rewrite H3; apply lookup_singleton_eq|].
  apply lookup_singleton_ne. congruence.
Qed.

(** The entry of a game's dict for a mode, with the fallback to BOTH. *)
Lemma mode_lookup (mp zm both : Path) (mode : Z) :
  (match ({[ MULTIPLAYER := mp; ZOMBIES := zm; BOTH := both ]}
            : gmap Z Path) !! mode with
   | Some p => Some p
   | None => ({[ MULTIPLAYER := mp; ZOMBIES := zm; BOTH := both ]}
                : gmap Z Path) !! BOTH
   end)
  = Some (if bool_decide (mode = MULTIPLAYER) then mp
          else if bool_decide (mode = ZOMBIES) then zm else both).
Proof.
  case_bool_decide as H0; [rewrite H0; reflexivity|].
  rewrite lookup_insert_ne by congruence.
  case_bool_decide as H1; [rewrite H1; reflexivity|].
  rewrite lookup_insert_ne by congruence.
  destruct (decide (mode = BOTH)) as [->|H2]; [reflexivity|].
  rewrite lookup_singleton_ne by congruence. reflexivity.
Qed.

Lemma known_game_cases (game : Z) :
  (0 ≤ game ≤ 3)%Z →
  game = PLUTONIUM_T6 ∨ game = PLUTONIUM_T5 ∨ game = PLUTONIUM_T4
  ∨ game = PLUTONIUM_IW5.
Proof. unfold PLUTONIUM_T6, PLUTONIUM_T5, PLUTONIUM_T4, PLUTONIUM_IW5. lia. Qed.

(** The result of [get_script_path] once Plutonium is found and the game
    is one of the four: the folder for the mode under some scripts
    folder, created in the world. *)
Lemma get_script_path_known (self : InjectionManager) (game : Z) :
  nonempty (plutonium_path self) = true → (0 ≤ game ≤ 3)%Z →
  ∃ parent : Path, ∀ mode w,
    get_script_path self game mode w
    = (Some (path_str
               (if bool_decide (mode = MULTIPLAYER)
                then joinpath (joinpath parent (of_string "scripts"))
                       (of_string "mp")
                else if bool_decide (mode = ZOMBIES)
                     then joinpath (joinpath parent (of_string "scripts"))
                            (of_string "zm")
                     else joinpath parent (of_string "scripts"))),
       mkdir_parents
         (if bool_decide (mode = MULTIPLAYER)
          then joinpath (joinpath parent (of_string "scripts"))
                 (of_string "mp")
          else if bool_decide (mode = ZOMBIES)
               then joinpath (joinpath parent (of_string "scripts"))
                      (of_string "zm")
               else joinpath parent (of_string "scripts")) w).
Proof.
  intros Hp Hg. unfold get_script_path. rewrite Hp. simpl.
  rewrite script_paths_lookup.
  destruct (known_game_cases game Hg) as [-> | [-> | [-> | ->]]]; simpl;
    eexists; intros mode w; rewrite mode_lookup; reflexivity.
Qed.

(** Without a Plutonium path, or for an unknown game, nothing is returned
    and nothing is created. *)
Lemma get_script_path_unavailable (self : InjectionManager) (game mode : Z)
    (w : World) :
  nonempty (plutonium_path self) = false ∨ ¬ (0 ≤ game ≤ 3)%Z →
  get_script_path self game mode w = (None, w).
Proof.
  intros [Hp|Hg]; unfold get_script_path.
  - rewrite Hp. reflexivity.
  - destruct (nonempty (plutonium_path self)); [|reflexivity]. simpl.
    rewrite script_paths_lookup.
    unfold PLUTONIUM_T6, PLUTONIUM_T5, PLUTONIUM_T4, PLUTONIUM_IW5.
    rewrite !bool_decide_false by lia. reflexivity.
Qed.

(** X12: [get_script_path] gives no folder exactly when Plutonium was not
    found (its path is [None] or empty) or the game is none of the four
    known ones, custom paths or not; it then creates nothing. *)
Theorem get_script_path_none (self : InjectionManager) (game mode : Z)
    (w : World) :
  ((get_script_path self game mode w).1 = None
   ↔ nonempty (plutonium_path self) = false ∨ ¬ (0 ≤ game ≤ 3)%Z)
  ∧ ((get_script_path self game mode w).1 = None →
     (get_script_path self game mode w).2 = w).
Proof.
  assert (Hiff : (get_script_path self game mode w).1 = None
                 → nonempty (plutonium_path self) = false
                   ∨ ¬ (0 ≤ game ≤ 3)%Z).
  { intros Hnone. destruct (nonempty (plutonium_path self)) eqn:Hp; [|auto].
    right. intros Hg.
    destruct (get_script_path_known self game Hp Hg) as (parent & E).
    rewrite E in Hnone. discriminate. }
  split; [split; [exact Hiff|]|].
  - intros Hcase. rewrite (get_script_path_unavailable _ _ _ _ Hcase).
    reflexivity.
  - intros Hnone. rewrite (get_script_path_unavailable _ _ _ _ (Hiff Hnone)).
    reflexivity.
Qed.

(** X13: for a known game and a found Plutonium, the folders of the
    three modes hang together: the folder for BOTH is a folder named
    scripts, the folders for MULTIPLAYER and ZOMBIES are its children mp
    and zm, every other mode value gets the folder for BOTH, and the call
    asks for the creation of exactly the folder it returns. *)
Theorem get_script_path_modes (self : InjectionManager) (game : Z) :
  nonempty (plutonium_path self) = true → (0 ≤ game ≤ 3)%Z →
  ∃ parent : Path,
    let both := joinpath parent (of_string "scripts") in
    (∀ w, get_script_path self game BOTH w
          = (Some (path_str both), mkdir_parents both w))
    ∧ (∀ w, get_script_path self game MULTIPLAYER w
            = (Some (path_str (joinpath both (of_string "mp"))),
               mkdir_parents (joinpath both (of_string "mp")) w))
    ∧ (∀ w, get_script_path self game ZOMBIES w
            = (Some (path_str (joinpath both (of_string "zm"))),
               mkdir_parents (joinpath both (of_string "zm")) w))
    ∧ (∀ mode w, mode ≠ MULTIPLAYER → mode ≠ ZOMBIES →
         get_script_path self game mode w
         = get_script_path self game BOTH w).
Proof.
  intros Hp Hg.
  destruct (get_script_path_known self game Hp Hg) as (parent & Hall).
  exists parent. simpl. split; [|split; [|split]].
  - intros w. rewrite Hall. reflexivity.
  - intros w. rewrite Hall. reflexivity.
  - intros w. rewrite Hall. reflexivity.
  - intros mode w H0 H1. rewrite !Hall.
    rewrite !(bool_decide_false (mode = _)) by assumption. reflexivity.
Qed.

(** X14: the custom path of one game has no effect on another game:
    setting, changing or removing the entry of [custom_paths] for a game
    leaves the result of [get_script_path] for every other game as it
    was. An entry that is [None] or empty has no effect on its own game
    either. *)
Theorem custom_path_is_per_game (self : InjectionManager) (other game mode : Z)
    (v : option str) (w : World) :
  (other ≠ game ∨ (nonempty v = false
                   ∧ nonempty (default None (custom_paths self !! game))
                     = false)) →
  get_script_path
    {| plutonium_path := plutonium_path self;
       custom_paths := <[other := v]> (custom_paths self) |} game mode w
  = get_script_path self game mode w.
Proof.
  intros Hcase. unfold get_script_path. simpl.
  destruct (nonempty (plutonium_path self)); [|reflexivity]. simpl.
  assert (Hbase : script_base
                    {| plutonium_path := plutonium_path self;
                       custom_paths := <[other := v]> (custom_paths self) |}
                    game
                  = script_base self game).
  { unfold script_base. simpl.
    destruct Hcase as [Hne|[Hv Hold]].
    - rewrite lookup_insert_ne by exact Hne. reflexivity.
    - destruct (decide (other = game)) as [->|Hne].
      + rewrite lookup_insert_eq. simpl. rewrite Hv, Hold. reflexivity.
      + rewrite lookup_insert_ne by exact Hne. reflexivity. }
  rewrite Hbase. reflexivity.
Qed.

(** X15: what [set_custom_paths] stores is what [get_script_path] starts
    from: for a game whose override is a non-empty string the base is the
    override itself when it is absolute and the override under the
    Plutonium path when it is relative; for a game with no override or an
    empty one the base is the Plutonium path. Overrides given earlier are
    forgotten. *)
Theorem set_custom_paths_base (overrides : gmap Z str) (self : InjectionManager)
    (game : Z) :
  script_base (set_custom_paths overrides self) game
  = match overrides !! game with
    | Some (c :: s) =>
        if is_absolute (path_of (c :: s)) then path_of (c :: s)
        else joinpath (path_of (default [] (plutonium_path self))) (c :: s)
    | _ => path_of (default [] (plutonium_path self))
    end.
Proof.
  unfold script_base, set_custom_paths. simpl. rewrite lookup_fmap.
  destruct (overrides !! game) as [[|c s]|]; reflexivity.
Qed.

(** ** Deploying *)

Lemma endswith_true (s suffix : str) :
  endswith s suffix = true ↔ suffix `suffix_of` s.
Proof. unfold endswith. apply bool_decide_eq_true. Qed.

(** X16: the file name a script is deployed under always ends with the
    extension .gsc, starts with the given name, is the given name itself
    when that already ends with .gsc, and is not extended a second time. *)
Theorem deployed_name_gsc (script_name : str) :
  endswith (deployed_name script_name) (of_string ".gsc") = true
  ∧ script_name `prefix_of` deployed_name script_name
  ∧ (endswith script_name (of_string ".gsc") = true →
     deployed_name script_name = script_name)
  ∧ (endswith script_name (of_string ".gsc") = false →
     deployed_name script_name = script_name ++ of_string ".gsc")
  ∧ deployed_name (deployed_name script_name) = deployed_name script_name.
Proof.
  change (of_string ".gsc") with gsc_extension.
  assert (Hends : endswith (deployed_name script_name) gsc_extension = true).
  { unfold deployed_name.
    destruct (endswith script_name gsc_extension) eqn:E; simpl; [exact E|].
    apply endswith_true. exists script_name. reflexivity. }
  split; [exact Hends|]. split; [|split; [|split]].
  - unfold deployed_name. destruct (endswith script_name gsc_extension); simpl.
    + reflexivity.
    + exists gsc_extension. reflexivity.
  - intros E. unfold deployed_name. rewrite E. reflexivity.
  - intros E. unfold deployed_name. rewrite E. reflexivity.
  - unfold deployed_name at 1. rewrite Hends. reflexivity.
Qed.

Lemma deployed_name_gsc_witness :
  deployed_name (of_string "mod.gsc") = of_string "mod.gsc"
  ∧ deployed_name (of_string "mod") = of_string "mod.gsc".
Proof.
  split.
  - destruct (deployed_name_gsc (of_string "mod.gsc")) as (_ & _ & Hd & _).
    apply Hd. vm_compute. reflexivity.
  - destruct (deployed_name_gsc (of_string "mod")) as (_ & _ & _ & Hd & _).
    apply Hd. vm_compute. reflexivity.
Defined.

(** X17: a deployment fails without touching the file system when the
    method is not the scripts method, when Plutonium was not found, or
    when the game is none of the four known ones: the flag is [False],
    the world is unchanged, and nothing is created or written. *)
Theorem inject_script_refused (self : InjectionManager) (script : str)
    (game method mode : Z) (script_name : str) (w : World) :
  method ≠ PLUTONIUM_SCRIPTS
  ∨ nonempty (plutonium_path self) = false
  ∨ ¬ (0 ≤ game ≤ 3)%Z →
  ∃ message,
    inject_script self script game method mode script_name w
    = ((false, message), w)
    ∧ (method = PLUTONIUM_SCRIPTS →
       message = of_string "Plutonium not found. Install Plutonium first.").
Proof.
  intros Hcase. unfold inject_script.
  case_bool_decide as Hm.
  - unfold _inject_plutonium.
    rewrite get_script_path_unavailable
      by (destruct Hcase as [Hc|[Hc|Hc]]; [contradiction|auto|auto]).
    simpl. eauto.
  - case_bool_decide; [eexists; split; [reflexivity|contradiction]|].
    case_bool_decide; eexists; (split; [reflexivity|contradiction]).
Qed.

(** X18: a deployment that reports success used the scripts method,
    found a folder for the game and mode, and wrote the script, unchanged,
    to the file with the deployed name in that folder, after asking for
    the folder's creation, without an exception; the message names that
    file. *)
Theorem inject_script_success (self : InjectionManager) (script : str)
    (game method mode : Z) (script_name message : str) (w w' : World) :
  inject_script self script game method mode script_name w
  = ((true, message), w') →
  method = PLUTONIUM_SCRIPTS
  ∧ ∃ folder w1,
      get_script_path self game mode w = (Some folder, w1)
      ∧ folder ≠ []
      ∧ write_text (joinpath (path_of folder) (deployed_name script_name))
          script w1 = (w', None)
      ∧ message
        = of_string "Script deployed successfully to:" ++ [10%N]
          ++ path_str (joinpath (path_of folder) (deployed_name script_name)).
Proof.
  unfold inject_script. case_bool_decide as Hm.
  2:{ repeat case_bool_decide; intros [=]. }
  intros Hrun. split; [exact Hm|]. unfold _inject_plutonium in Hrun.
  destruct (get_script_path self game mode w) as [folder w1].
  destruct folder as [[|c folder]|]; simpl in Hrun; [inv Hrun| |inv Hrun].
  destruct (write_text _ script w1) as [w2 [e|]] eqn:Hw; inv Hrun.
  exists (c :: folder), w1. split; [reflexivity|]. split; [discriminate|].
  split; [exact Hw|reflexivity].
Qed.

(** X19: whether a game counts as running depends on process names
    only: a game that is none of the four never counts as running, and
    while the Plutonium bootstrapper runs, every one of the four games
    counts as running. *)
Theorem is_game_running_bootstrapper (game : Z) (w : World) :
  (¬ (0 ≤ game ≤ 3)%Z → is_game_running game w = false)
  ∧ ((0 ≤ game ≤ 3)%Z →
     of_string "plutonium-bootstrapper-win32.exe" ∈ running_process_names w →
     is_game_running game w = true).
Proof.
  split.
  - intros Hg. unfold is_game_running, process_names.
    unfold PLUTONIUM_T6, PLUTONIUM_T5, PLUTONIUM_T4, PLUTONIUM_IW5.
    rewrite !lookup_insert_ne by lia.
    rewrite lookup_singleton_ne by lia. reflexivity.
  - intros Hg Hin. unfold is_game_running.
    apply existsb_exists.
    exists (of_string "plutonium-bootstrapper-win32.exe").
    split; [|apply bool_decide_eq_true; exact Hin].
    destruct (known_game_cases game Hg) as [-> | [-> | [-> | ->]]];
      vm_compute; left; reflexivity.
Qed.

End injection.

(** *** Examples on the example platform *)

Lemma get_script_path_modes_witness :
  ∃ parent : str,
    @get_script_path example_platform
      {| plutonium_path := Some (of_string "/plut"); custom_paths := ∅ |}
      PLUTONIUM_T5 MULTIPLAYER []
    = (Some ((parent ++ [47%N] ++ of_string "scripts") ++ [47%N]
             ++ of_string "mp"), []).
Proof.
  destruct (@get_script_path_modes example_platform
              {| plutonium_path := Some (of_string "/plut");
                 custom_paths := ∅ |} PLUTONIUM_T5)
    as (parent & _ & Hmp & _).
  - reflexivity.
  - unfold PLUTONIUM_T5. lia.
  - exists parent. exact (Hmp []).
Defined.

Lemma custom_path_is_per_game_witness :
  @get_script_path example_platform
    {| plutonium_path := Some (of_string "/plut");
       custom_paths := <[PLUTONIUM_T4 := Some (of_string "/mods")]> ∅ |}
    PLUTONIUM_T6 BOTH []
  = @get_script_path example_platform
      {| plutonium_path := Some (of_string "/plut"); custom_paths := ∅ |}
      PLUTONIUM_T6 BOTH [].
Proof.
  apply (@custom_path_is_per_game example_platform
           {| plutonium_path := Some (of_string "/plut"); custom_paths := ∅ |}
           PLUTONIUM_T4 PLUTONIUM_T6 BOTH (Some (of_string "/mods")) []).
  left. discriminate.
Defined.

Lemma inject_script_refused_witness :
  ∃ message,
    @inject_script example_platform
      {| plutonium_path := None;
         custom_paths := <[PLUTONIUM_T6 := Some (of_string "/mods")]> ∅ |}
      (of_string "init() {}") PLUTONIUM_T6 PLUTONIUM_SCRIPTS BOTH
      (of_string "mod") []
    = ((false, message), []).
Proof.
  destruct (@inject_script_refused example_platform
              {| plutonium_path := None;
                 custom_paths := <[PLUTONIUM_T6 := Some (of_string "/mods")]> ∅ |}
              (of_string "init() {}") PLUTONIUM_T6 PLUTONIUM_SCRIPTS BOTH
              (of_string "mod") []) as (message & Hrun & _).
  - right. left. reflexivity.
  - exists message. exact Hrun.
Defined.

Lemma inject_script_success_witness :
  ∃ folder : str,
    @get_script_path example_platform
      {| plutonium_path := Some (of_string "/plut"); custom_paths := ∅ |}
      PLUTONIUM_T6 ZOMBIES [] = (Some folder, [])
    ∧ folder ≠ [].
Proof.
  destruct (@inject_script_success example_platform
              {| plutonium_path := Some (of_string "/plut");
                 custom_paths := ∅ |}
              (of_string "init() {}") PLUTONIUM_T6 PLUTONIUM_SCRIPTS ZOMBIES
              (of_string "mod")
              (of_string "Script deployed successfully to:" ++ [10%N]
               ++ of_string "/plut/t6/scripts/zm/mod.gsc")
              []
              [(of_string "/plut/t6/scripts/zm/mod.gsc",
                of_string "init() {}")])
    as (_ & folder & w1 & Hpath & Hne & _).
  - vm_compute. reflexivity.
  - exists folder. split; [|exact Hne].
    rewrite Hpath. vm_compute in Hpath. inv Hpath. reflexivity.
Defined.

Lemma is_game_running_bootstrapper_witness :
  @is_game_running
    {| Path := str; World := list str;
       path_of := λ s, s; path_str := λ p, p;
       joinpath := λ p s, p ++ [47%N] ++ s;
       is_absolute := λ _, false;
       getenv_localappdata := λ _, None;
       path_exists := λ _ _, false;
       mkdir_parents := λ _ w, w;
       write_text := λ _ _ w, (w, None);
       running_process_names := λ w, w |}
    PLUTONIUM_IW5 [of_string "explorer.exe";
                   of_string "plutonium-bootstrapper-win32.exe"] = true.
Proof.
  apply (@is_game_running_bootstrapper _ PLUTONIUM_IW5).
  - unfold PLUTONIUM_IW5. lia.
  - right. left.
Defined.

(** ** Font size, theme and gutter *)

(** X20: the editor's font size never goes below 6 points; a size
    reported below 6 counts as 11; within the range, a change by [delta]
    is undone by a change by [-delta]. Asking for the difference between
    a target and the current size gives the target, or 6 if the target
    is smaller, when the current size is at least 6; when the current
    size is below 6 it gives the target plus 11 minus the current size,
    or 6 if that is smaller, which is not the target. *)
Theorem set_editor_font_size_range (delta size : Z) :
  (6 ≤ set_editor_font_size delta size)%Z
  ∧ ((size < 6)%Z →
     set_editor_font_size delta size = Z.max 6 (11 + delta))
  ∧ ((6 ≤ size)%Z → (6 ≤ size + delta)%Z →
     set_editor_font_size delta size = (size + delta)%Z
     ∧ set_editor_font_size (- delta) (set_editor_font_size delta size) = size)
  ∧ (∀ target,
       set_editor_font_size (target - size) size
       = if (size <? 6)%Z then Z.max 6 (target + (11 - size))
         else Z.max 6 target)
  ∧ (∀ target, (size < 6)%Z → (6 ≤ target)%Z →
       set_editor_font_size (target - size) size ≠ target).
Proof.
  unfold set_editor_font_size. split; [lia|]. split; [|split; [|split]].
  - intros Hs. rewrite (proj2 (Z.ltb_lt size 6)) by lia. reflexivity.
  - intros H1 H2. rewrite (proj2 (Z.ltb_ge size 6)) by lia.
    rewrite Z.max_r by lia. rewrite (proj2 (Z.ltb_ge (size + delta) 6)) by lia.
    split; lia.
  - intros target. destruct (Z.ltb_spec size 6); f_equal; lia.
  - intros target H1 H2. rewrite (proj2 (Z.ltb_lt size 6)) by lia. lia.
Qed.

(** A pixel-sized font reports the point size -1: asking for 12 points
    gives 24. *)
Lemma set_editor_font_size_range_witness :
  set_editor_font_size (12 - (-1)) (-1) = 24%Z
  ∧ set_editor_font_size (12 - 10) 10 = 12%Z.
Proof.
  destruct (set_editor_font_size_range (12 - (-1)) (-1))
    as (_ & _ & _ & Hlow & _).
  destruct (set_editor_font_size_range (12 - 10) 10)
    as (_ & _ & _ & Hhigh & _).
  split; [exact (Hlow 12%Z)|exact (Hhigh 12%Z)].
Defined.

Lemma dark_not_light : of_string "dark" ≠ of_string "light".
Proof. discriminate. Qed.

(** X21: after a toggle the theme is light or dark, never anything else,
    and the style sheet and the stored setting agree with it: the light
    style sheet exactly for the light theme. A dark or unset theme
    becomes light, every other theme becomes dark, so two toggles in a
    row bring a light or dark theme back. *)
Theorem toggle_theme_flips (st : ThemeState) :
  let st' := toggle_theme st in
  saved_theme st' = current_theme st'
  ∧ ((default (of_string "dark") (current_theme st) = of_string "dark"
      ∧ current_theme st' = Some (of_string "light")
      ∧ style_sheet st' = light_css)
     ∨ (default (of_string "dark") (current_theme st) ≠ of_string "dark"
        ∧ current_theme st' = Some (of_string "dark")
        ∧ style_sheet st' = base_css))
  ∧ (current_theme st = Some (of_string "dark")
     ∨ current_theme st = Some (of_string "light") →
     current_theme (toggle_theme st') = current_theme st).
Proof.
  intros st'. unfold st', toggle_theme.
  split; [reflexivity|]. split.
  - case_bool_decide as Hd; [left|right]; (split; [exact Hd|]);
      split; reflexivity.
  - intros [E|E]; rewrite E; reflexivity.
Qed.

(** *** Decimal digits *)

Lemma pretty_N_go_length (x : N) (s : string) :
  String.length (pretty_N_go x s)
  = String.length (pretty_N_go x "") + String.length s.
Proof.
  revert s. induction (N.lt_wf_0 x) as [x _ IH]; intros s.
  destruct (decide (x = 0%N)) as [->|Hx].
  - rewrite !pretty_N_go_0. reflexivity.
  - rewrite !(pretty_N_go_step x) by lia.
    assert (Hlt : (x `div` 10 < x)%N) by (apply N.div_lt; lia).
    rewrite (IH _ Hlt (String _ s)), (IH _ Hlt (String _ "")).
    simpl. lia.
Qed.

Lemma pretty_N_go_digits (x : N) :
  (0 < x)%N →
  String.length (pretty_N_go x "")
  = S (String.length (pretty_N_go (x `div` 10)%N "")).
Proof.
  intros Hx. rewrite pretty_N_go_step by exact Hx.
  rewrite pretty_N_go_length. simpl. lia.
Qed.

Lemma pretty_N_go_mono (x y : N) :
  (x ≤ y)%N →
  String.length (pretty_N_go x "") ≤ String.length (pretty_N_go y "").
Proof.
  revert x. induction (N.lt_wf_0 y) as [y _ IH]; intros x Hxy.
  destruct (decide (x = 0%N)) as [->|Hx].
  - rewrite pretty_N_go_0. simpl. lia.
  - rewrite (pretty_N_go_digits x), (pretty_N_go_digits y) by lia.
    apply le_n_S, IH.
    + apply N.div_lt; lia.
    + apply N.Div0.div_le_mono. exact Hxy.
Qed.

Lemma of_string_length (s : string) : length (of_string s) = String.length s.
Proof.
  unfold of_string. rewrite length_fmap.
  induction s as [|a s IH]; simpl; [reflexivity|]. rewrite IH. reflexivity.
Qed.

Lemma decimal_digits_pos (n : Z) :
  (1 ≤ n)%Z →
  length (of_string (pretty n))
  = String.length (pretty_N_go (Z.to_N n) "").
Proof.
  intros Hn. rewrite of_string_length. destruct n as [|p|p]; [lia| |lia].
  unfold pretty, pretty_Z, pretty, pretty_positive, pretty, pretty_N.
  rewrite decide_False by discriminate. reflexivity.
Qed.

(** X22: the line-number area is never narrower than 10 plus the width
    of one digit, has exactly that width up to 9 lines, and does not
    shrink when lines are added. *)
Theorem line_number_area_width_mono (advance9 a b : Z) :
  (0 ≤ advance9)%Z → (a ≤ b)%Z →
  (10 + advance9 ≤ line_number_area_width advance9 a)%Z
  ∧ (line_number_area_width advance9 a
     ≤ line_number_area_width advance9 b)%Z
  ∧ ((b ≤ 9)%Z → line_number_area_width advance9 b = (10 + advance9)%Z).
Proof.
  intros Hadv Hab. unfold line_number_area_width.
  rewrite !decimal_digits_pos by lia.
  assert (Hone : ∀ n, (1 ≤ n)%Z →
            1 ≤ String.length (pretty_N_go (Z.to_N n) "")).
  { intros n Hn. rewrite pretty_N_go_digits by lia. lia. }
  pose proof (Hone (Z.max 1 a) ltac:(lia)) as Ha.
  pose proof (pretty_N_go_mono (Z.to_N (Z.max 1 a)) (Z.to_N (Z.max 1 b))
                ltac:(lia)) as Hmono.
  split; [nia|]. split; [nia|].
  intros Hb. rewrite pretty_N_go_digits by lia.
  replace (Z.to_N (Z.max 1 b) `div` 10)%N with 0%N.
  - rewrite pretty_N_go_0. simpl. lia.
  - symmetry. apply N.div_small. lia.
Qed.

Lemma line_number_area_width_mono_witness :
  (line_number_area_width 8 99 ≤ line_number_area_width 8 100)%Z
  ∧ line_number_area_width 8 9 = 18%Z.
Proof.
  destruct (line_number_area_width_mono 8 99 100) as (_ & Hm & _);
    [lia|lia|].
  destruct (line_number_area_width_mono 8 9 9) as (_ & _ & H9); [lia|lia|].
  split; [exact Hm|]. apply H9. lia.
Defined.

(** ** More on the lint scan *)

Lemma splitlines_go_chars after_cr cur s l ch :
  l ∈ splitlines_go after_cr cur s → ch ∈ l → ch ∈ cur ∨ ch ∈ s.
Proof.
  revert after_cr cur. induction s as [|c s IH]; intros after_cr cur; simpl.
  - destruct cur as [|x cur]; [intros Hl; inv Hl|].
    intros Hl%list_elem_of_singleton Hch. subst l.
    left. apply elem_of_reverse. exact Hch.
  - destruct (after_cr && (c =? 10)%N).
    { intros Hl Hch. destruct (IH _ _ Hl Hch); [left|right; right]; done. }
    destruct (is_linebreak c).
    + intros [->|Hl]%elem_of_cons Hch.
      * left. apply elem_of_reverse. exact Hch.
      * destruct (IH _ _ Hl Hch) as [Hin|Hin]; [inv Hin|right; right; done].
    + intros Hl Hch. destruct (IH _ _ Hl Hch) as [Hin|Hin].
      * apply elem_of_cons in Hin as [->|Hin]; [right; left|left; done].
      * right; right; done.
Qed.

Lemma doc_cells_chars i lines c :
  c ∈ doc_cells i lines → ∃ l, l ∈ lines ∧ cell_ch c ∈ l.
Proof.
  revert i. induction lines as [|l lines IH]; intros i; simpl.
  - intros Hc. inv Hc.
  - intros [Hc|Hc]%elem_of_app.
    + exists l. split; [left|].
      apply (line_cells_lookup _ [] l) in Hc as [_ Hl].
      eapply list_elem_of_lookup_2. exact Hl.
    + destruct (IH _ Hc) as (l' & Hl' & Hch). exists l'.
      split; [right; exact Hl'|exact Hch].
Qed.

Lemma step_plain st c : plain_char (cell_ch c) → step st c = st.
Proof.
  intros (Hq & Ho & Hc). unfold step. rewrite Hq, Ho, Hc. simpl.
  destruct (negb (in_string st)); reflexivity.
Qed.

(** X23: a text without quotes and without brackets gets no diagnostic,
    whatever else it holds and however it is split into lines. *)
Theorem lint_plain_text (text : str) :
  Forall plain_char text → lint text = Ok [].
Proof.
  intros Hplain. rewrite lint_run.
  assert (Hrun : run (doc_cells 1 (splitlines text)) init_state = init_state).
  { assert (Hcells : Forall (λ c, plain_char (cell_ch c))
                       (doc_cells 1 (splitlines text))).
    { apply Forall_forall. intros c Hc.
      destruct (doc_cells_chars _ _ _ Hc) as (l & Hl & Hch).
      destruct (splitlines_go_chars _ _ _ _ _ Hl Hch) as [Hin|Hin];
        [inv Hin|].
      rewrite Forall_forall in Hplain. apply Hplain, Hin. }
    induction Hcells as [|c cs Hc _ IH]; [reflexivity|].
    simpl. rewrite (step_plain _ _ Hc). exact IH. }
  rewrite Hrun. reflexivity.
Qed.

Lemma lint_plain_text_witness :
  lint (of_string "level thread onPlayerConnect;" ++ [10%N]
        ++ of_string "wait 0.05;") = Ok [].
Proof.
  apply lint_plain_text. unfold plain_char.
  repeat (constructor; [vm_compute; auto|]). constructor.
Defined.

Lemma run_errors_sorted cs st :
  StronglySorted cell_before cs →
  StronglySorted reported_before (errors st) →
  (∀ e c, e ∈ errors st → c ∈ cs → pos_lt (diag_pos e) (cell_pos c)) →
  StronglySorted reported_before (errors (run cs st)).
Proof.
  revert st. induction cs as [|c cs IH]; intros st Hcs Hst Hlt; [exact Hst|].
  apply StronglySorted_cons in Hcs as [Hc Hcs]. rewrite Forall_forall in Hc.
  simpl. apply IH; [exact Hcs| |].
  - destruct (step_errors_cases st c) as [->|(_ & _ & _ & ->)]; [exact Hst|].
    apply StronglySorted_app_2; [|exact Hst|repeat constructor].
    intros e1 e2 H1 H2. apply list_elem_of_singleton in H2 as ->.
    apply (Hlt e1 c H1). left.
  - intros e c' He Hc'.
    destruct (step_errors_cases st c) as [E|(_ & _ & _ & E)]; rewrite E in He.
    + apply Hlt; [exact He|right; exact Hc'].
    + apply elem_of_app in He as [He|He].
      * apply Hlt; [exact He|right; exact Hc'].
      * apply list_elem_of_singleton in He as ->. apply (Hc c'), Hc'.
Qed.

(** X24: the Unmatched closing diagnostics are listed in the order of
    their positions in the text, line by line and column by column, with
    no position reported twice. *)
Theorem closing_diagnostics_in_order (text : str) :
  ∃ st, scan text = Ok st
        ∧ StronglySorted reported_before (errors st)
        ∧ NoDup (diag_pos <$> errors st).
Proof.
  eexists. split; [apply scan_run|].
  assert (Hsorted : StronglySorted reported_before
                      (errors (run (doc_cells 1 (splitlines text)) init_state))).
  { apply run_errors_sorted; [apply doc_cells_sorted|constructor|].
    intros e c He. inv He. }
  split; [exact Hsorted|].
  induction Hsorted as [|e es _ IH Hall]; [constructor|].
  rewrite fmap_cons. constructor; [|exact IH].
  intros Hin. apply list_elem_of_fmap in Hin as (e' & Hpos & He').
  rewrite Forall_forall in Hall. specialize (Hall e' He').
  unfold reported_before in Hall. rewrite <- Hpos in Hall.
  destruct Hall as [Hlt|[_ Hlt]]; lia.
Qed.

Lemma cell_in_doc_char lines c1 c2 :
  cell_in_doc lines c1 → cell_in_doc lines c2 →
  cell_pos c1 = cell_pos c2 → cell_ch c1 = cell_ch c2.
Proof.
  intros (_ & l1 & Hl1 & Hc1) (_ & l2 & Hl2 & Hc2) [= Hline Hcol].
  rewrite Hline in Hl1. rewrite Hl1 in Hl2. injection Hl2 as ->.
  rewrite Hcol in Hc1. rewrite Hc1 in Hc2. injection Hc2 as ->. reflexivity.
Qed.

Lemma sorted_positions_NoDup {A} (pos : A → nat * nat) (l : list A) :
  StronglySorted (λ a b, pos_lt (pos a) (pos b)) l → NoDup (pos <$> l).
Proof.
  induction 1 as [|x l _ IH Hall]; [constructor|].
  rewrite fmap_cons. constructor; [|exact IH].
  intros Hin. apply list_elem_of_fmap in Hin as (y & Hpos & Hy).
  rewrite Forall_forall in Hall. specialize (Hall y Hy). simpl in Hall.
  rewrite <- Hpos in Hall. destruct Hall as [Hlt|[_ Hlt]]; lia.
Qed.

(** X25: no position is reported twice: the diagnostics of a lint pass,
    Unmatched closing, Unterminated string literal and Unmatched opening
    together, are anchored at pairwise different (line, column)
    positions. *)
Theorem lint_positions_distinct (text : str) (ds : list Diagnostic) :
  lint text = Ok ds → NoDup (diag_pos <$> ds).
Proof.
  rewrite lint_run. intros [= <-].
  set (lines := splitlines text).
  set (st := run (doc_cells 1 lines) init_state).
  destruct (scan_origin lines) as (He & Hs & Hq). fold st in He, Hs, Hq.
  rewrite Forall_forall in He. rewrite Forall_forall in Hs.
  assert (Herr : NoDup (diag_pos <$> errors st)).
  { apply (sorted_positions_NoDup diag_pos).
    apply run_errors_sorted; [apply doc_cells_sorted|constructor|].
    intros e c H. inv H. }
  assert (Hopen : NoDup (diag_pos <$> (opening_error <$> stack st))).
  { rewrite <- list_fmap_compose.
    apply (sorted_positions_NoDup (diag_pos ∘ opening_error)).
    apply scan_stack_sorted. }
  assert (Hcross : ∀ p, p ∈ diag_pos <$> errors st →
                        p ∈ diag_pos <$> (opening_error <$> stack st) → False).
  { intros p (e & -> & Hein)%list_elem_of_fmap (d & Hp & Hd)%list_elem_of_fmap.
    apply list_elem_of_fmap in Hd as (o & -> & Ho).
    destruct (He e Hein) as (c1 & Hc1 & Hcl & ->).
    destruct (Hs o Ho) as (c2 & Hc2 & Hop & ->).
    pose proof (cell_in_doc_char lines c1 c2 Hc1 Hc2 Hp) as Hch.
    rewrite Hch in Hcl. rewrite (closer_not_opener _ Hcl) in Hop.
    discriminate. }
  destruct (in_string st) eqn:Hin.
  - destruct (Hq eq_refl) as (c & Hc & Hquote & _ & Hl & Hcol).
    rewrite (report_in_string _ _ _ Hin Hl Hcol), !fmap_app.
    destruct (quote_not_bracket _ Hquote) as [Hno Hnc].
    apply NoDup_app. split; [exact Herr|]. split.
    + intros p Hp [Hu|Hp']%elem_of_app.
      * apply list_elem_of_singleton in Hu as ->.
        apply list_elem_of_fmap in Hp as (e & Hpos & Hein).
        destruct (He e Hein) as (c1 & Hc1 & Hcl & ->).
        pose proof (cell_in_doc_char lines c c1 Hc Hc1 Hpos) as Hch.
        rewrite <- Hch, Hnc in Hcl. discriminate.
      * exact (Hcross p Hp Hp').
    + simpl. constructor; [|exact Hopen].
      intros (d & Hpos & Hd)%list_elem_of_fmap.
      apply list_elem_of_fmap in Hd as (o & -> & Ho).
      destruct (Hs o Ho) as (c2 & Hc2 & Hop & ->).
      pose proof (cell_in_doc_char lines c c2 Hc Hc2 Hpos) as Hch.
      rewrite <- Hch, Hno in Hop. discriminate.
  - rewrite (report_out_string _ Hin), fmap_app.
    apply NoDup_app. split; [exact Herr|]. split; [|exact Hopen].
    intros p Hp Hp'. exact (Hcross p Hp Hp').
Qed.

Lemma lint_positions_distinct_witness :
  NoDup [(1, 1); (1, 2); (1, 0)].
Proof.
  apply (lint_positions_distinct (of_string "(]'")
           [ {| line := 1; col := 1; len := 1;
                msg := of_string "Unmatched closing ']'" |};
             {| line := 1; col := 2; len := 1;
                msg := of_string "Unterminated string literal" |};
             {| line := 1; col := 0; len := 1;
                msg := of_string "Unmatched opening '('" |} ]).
  vm_compute. reflexivity.
Defined.

Lemma length_removelast_le {A} (l : list A) :
  length (removelast l) ≤ length l.
Proof.
  destruct l as [|x l] using rev_ind; [reflexivity|].
  rewrite removelast_last, length_app. simpl. lia.
Qed.

Lemma step_pending st c : pending (step st c) ≤ S (pending st).
Proof.
  unfold step, pending.
  destruct (is_quote (cell_ch c) && _).
  { destruct (in_string st) eqn:Hin; simpl; [|lia].
    destruct (bool_decide (Some _ = _)); simpl; rewrite ?Hin; lia. }
  destruct (in_string st) eqn:Hin; simpl; rewrite ?Hin; [lia|].
  destruct (is_opener (cell_ch c));
    [simpl; rewrite length_app, Hin; simpl; lia|].
  destruct (is_closer (cell_ch c)); [|simpl; rewrite Hin; lia].
  destruct (last (stack st));
    [|simpl; rewrite length_app, Hin; simpl; lia].
  destruct (bool_decide (pairs !! _ = _)); simpl; rewrite Hin.
  - pose proof (length_removelast_le (stack st)). lia.
  - rewrite length_app. simpl. lia.
Qed.

Lemma run_pending cs st : pending (run cs st) ≤ pending st + length cs.
Proof.
  revert st. induction cs as [|c cs IH]; intros st; simpl; [lia|].
  specialize (IH (step st c)). pose proof (step_pending st c). lia.
Qed.

(** X26: a lint pass never reports more diagnostics than the text has
    characters. *)
Theorem lint_count_bound (text : str) (ds : list Diagnostic) :
  lint text = Ok ds → length ds ≤ length text.
Proof.
  rewrite lint_run. intros [= <-].
  set (st := run (doc_cells 1 (splitlines text)) init_state).
  assert (Hlen : length (report st) = pending st).
  { unfold pending. destruct (in_string st) eqn:Hin.
    - destruct (string_vars_inv _ Hin) as (q & l & c & _ & _ & Hl & Hc).
      rewrite (report_in_string _ l c Hin Hl Hc).
      rewrite !length_app, length_fmap. simpl. lia.
    - rewrite (report_out_string _ Hin), length_app, length_fmap. lia. }
  rewrite Hlen. etrans; [apply run_pending|]. simpl.
  apply splitlines_bounds.
Qed.

Lemma lint_count_bound_witness :
  length [ {| line := 1; col := 0; len := 1;
              msg := of_string "Unmatched closing ')'" |} ] ≤ 1.
Proof.
  apply (lint_count_bound (of_string ")")). vm_compute. reflexivity.
Defined.

